(** * A shallow embedding of the request/cache layer of node-gw2-api

    The model follows the most complete revision of the client class
    ([GW2API] with [_request] accepting 200 and 206, [_apiRequest] and
    [_apiDetailsRequest] taking an optional api key).  JavaScript values
    are modelled by [jsval]; numbers are restricted to integers (the ids,
    pages and status codes the layer handles).  The HTTP transport and the
    JSON decoder are external collaborators: they are section variables.
    The cache store of [cache-manager] is its memory store, an LRU store
    of at most [maxCacheObjects] entries: the entries are a finite map from
    string keys to values, with the keys in order of use.  The store also
    expires an entry [cacheTimeout] seconds after its write; the model has
    no clock, and describes calls made before the entries they read
    expire. *)

From Stdlib Require Import ZArith Ascii.
From Stdlib Require Import Sorted Permutation.
From stdpp Require Import base list gmap strings.

Open Scope stdpp_scope.
Set Warnings "-register-all".

(** ** JavaScript values *)

(** The errors the layer raises.  [_request] raises
    [new Error(`{ httpStatusCode : ..., responseBody : ... }`)] on a status
    other than 200/206, [_jsonParse] raises ["Error parsing JSON response: "]
    on a malformed body, the HTTP library rejects on a network failure, and
    property reads on [undefined]/[null] raise a [TypeError]. *)
Inductive js_error :=
  | HttpStatusError (status : Z) (body : string)
  | JsonParseError (body : string)
  | NetworkError (msg : string)
  | TypeError (msg : string).

(** JavaScript values.  [JErr] is an [Error] instance: the layer can hand one
    back as an ordinary value.  Object fields are kept in insertion order. *)
Inductive jsval :=
  | JUndef
  | JNull
  | JBool (b : bool)
  | JNum (z : Z)
  | JStr (s : string)
  | JArr (l : list jsval)
  | JObj (fields : list (string * jsval))
  | JErr (e : js_error).

(** Truthiness ([if (x)], [!x], [x || d]); NaN is not a modelled number. *)
Definition truthy (v : jsval) : bool :=
  match v with
  | JUndef | JNull => false
  | JBool b => b
  | JNum z => negb (Z.eqb z 0)
  | JStr s => negb (String.eqb s EmptyString)
  | _ => true
  end.

(** [x instanceof Array] *)
Definition is_array (v : jsval) : bool :=
  match v with JArr _ => true | _ => false end.

(** ** Decimal rendering and property keys *)

Definition digit_char (d : N) : ascii := ascii_of_N (48 + d).

Fixpoint dec_fuel (fuel : nat) (n : N) (acc : string) : string :=
  match fuel with
  | O => acc
  | S f =>
      let acc' := String (digit_char (n mod 10)) acc in
      if (n <? 10)%N then acc' else dec_fuel f (n / 10)%N acc'
  end.

(** [String(n)] for a non-negative integer; [S (N.size_nat n)] bounds the
    number of decimal digits (one for 0). *)
Definition N_to_string (n : N) : string := dec_fuel (S (N.size_nat n)) n EmptyString.

(** [String(z)] for an integer. *)
Definition Z_to_string (z : Z) : string :=
  if (z <? 0)%Z then "-" +:+ N_to_string (Z.to_N (- z)) else N_to_string (Z.to_N z).

Fixpoint parse_digits (s : string) (acc : N) : option N :=
  match s with
  | EmptyString => Some acc
  | String c s' =>
      let k := N_of_ascii c in
      if (48 <=? k)%N && (k <=? 57)%N then parse_digits s' (acc * 10 + (k - 48))%N
      else None
  end.

(** Property keys.  An object property named by a canonical numeric string
    below 2^32 - 1 is an array index; [Object.keys] and [JSON.stringify]
    list the indices first, ascending, then the other names in insertion
    order. *)
Inductive pkey := PIndex (n : N) | PName (s : string).

Definition max_index : N := 4294967295.

Definition classify_key (s : string) : pkey :=
  match s with
  | EmptyString => PName s
  | String "0" EmptyString => PIndex 0
  | String "0" _ => PName s
  | _ =>
      match parse_digits s 0 with
      | Some n => if (n <? max_index)%N then PIndex n else PName s
      | None => PName s
      end
  end.

Definition pkey_eqb (a b : pkey) : bool :=
  match a, b with
  | PIndex m, PIndex n => N.eqb m n
  | PName s, PName t => String.eqb s t
  | _, _ => false
  end.

(** Insertion of an index entry into an ascending run of index entries. *)
Fixpoint insert_index {A} (n : N) (x : A) (l : list (N * A)) : list (N * A) :=
  match l with
  | [] => [(n, x)]
  | (m, y) :: l' => if (n <? m)%N then (n, x) :: l else (m, y) :: insert_index n x l'
  end.

(** Files an entry under its index, if its key is one. *)
Definition index_entry {A} (acc : list (N * A)) (e : pkey * A) : list (N * A) :=
  match e with
  | (PIndex n, x) => insert_index n x acc
  | _ => acc
  end.

Definition is_name {A} (e : pkey * A) : bool :=
  match e.1 with PName _ => true | PIndex _ => false end.

(** The own-property order of an object whose entries, each under a
    distinct key, are given in insertion order. *)
Definition own_order {A} (entries : list (pkey * A)) : list (pkey * A) :=
  map (fun e => (PIndex e.1, e.2)) (fold_left index_entry entries []) ++
  List.filter is_name entries.

(** ** String conversions *)

Fixpoint join (sep : string) (l : list string) : string :=
  match l with
  | [] => EmptyString
  | [x] => x
  | x :: l' => x +:+ sep +:+ join sep l'
  end.

Definition error_message (e : js_error) : string :=
  match e with
  | HttpStatusError st b =>
      "{ httpStatusCode : " +:+ Z_to_string st +:+ ", responseBody : " +:+ b +:+ " }"
  | JsonParseError b => "Error parsing JSON response: " +:+ b
  | NetworkError m => m
  | TypeError m => m
  end.

(** [String(v)], as used by template literals and [Array.prototype.join]. *)
Fixpoint to_str (v : jsval) : string :=
  match v with
  | JUndef => "undefined"
  | JNull => "null"
  | JBool b => if b then "true" else "false"
  | JNum z => Z_to_string z
  | JStr s => s
  | JArr l =>
      join "," (map (fun e => match e with JUndef | JNull => EmptyString | _ => to_str e end) l)
  | JObj _ => "[object Object]"
  | JErr e => "Error: " +:+ error_message e
  end.

(** [ToPropertyKey] followed by the array-index classification; for an
    integer the classification of its decimal rendering is written out. *)
Definition to_pkey (v : jsval) : pkey :=
  match v with
  | JNum z =>
      if (0 <=? z)%Z && (z <? Z.of_N max_index)%Z then PIndex (Z.to_N z)
      else PName (Z_to_string z)
  | _ => classify_key (to_str v)
  end.

(** ** JSON.stringify *)

(** The one-character string made of a double quote. *)
Definition dq : string := String (ascii_of_N 34) EmptyString.

Definition hex_char (d : N) : ascii :=
  if (d <? 10)%N then ascii_of_N (48 + d) else ascii_of_N (87 + d).

(** Escaping of one character inside a JSON string literal. *)
Definition escape_char (c : ascii) : string :=
  let k := N_of_ascii c in
  if (k =? 34)%N then "\" +:+ dq
  else if (k =? 92)%N then "\\"
  else if (k =? 8)%N then "\b"
  else if (k =? 9)%N then "\t"
  else if (k =? 10)%N then "\n"
  else if (k =? 12)%N then "\f"
  else if (k =? 13)%N then "\r"
  else if (k <? 32)%N then
    "\u00" +:+ String (hex_char (k / 16)) (String (hex_char (k mod 16)) EmptyString)
  else String c EmptyString.

Fixpoint escape (s : string) : string :=
  match s with
  | EmptyString => EmptyString
  | String c s' => escape_char c +:+ escape s'
  end.

Definition quote (s : string) : string := dq +:+ escape s +:+ dq.

(** [JSON.stringify(v)]; [None] is the [undefined] it returns for
    [undefined].  Object members are emitted in own-property order and
    members whose value is [undefined] are skipped; an [Error] instance has
    no enumerable own property. *)
Fixpoint stringify (v : jsval) : option string :=
  match v with
  | JUndef => None
  | JNull => Some "null"
  | JBool b => Some (if b then "true" else "false")
  | JNum z => Some (Z_to_string z)
  | JStr s => Some (quote s)
  | JArr l =>
      Some ("[" +:+ join "," (map (fun e => default "null" (stringify e)) l) +:+ "]")
  | JObj fs =>
      let members := map (fun kv => (classify_key kv.1, (kv.1, stringify kv.2))) fs in
      Some ("{" +:+
            join "," (flat_map (fun m => match m.2.2 with
                                         | Some t => [quote m.2.1 +:+ ":" +:+ t]
                                         | None => []
                                         end) (own_order members)) +:+ "}")
  | JErr _ => Some "{}"
  end.

(** ** Plain objects *)

(** [o[k]] on an object given by its fields. *)
Fixpoint fget (fs : list (string * jsval)) (k : string) : jsval :=
  match fs with
  | [] => JUndef
  | (k', v) :: fs' => if String.eqb k k' then v else fget fs' k
  end.

(** [o[k] = v]: an existing property keeps its position. *)
Fixpoint fset (fs : list (string * jsval)) (k : string) (v : jsval) : list (string * jsval) :=
  match fs with
  | [] => [(k, v)]
  | (k', v') :: fs' => if String.eqb k k' then (k', v) :: fs' else (k', v') :: fset fs' k v
  end.

(** The outcome of a promise. *)
Inductive settled (A : Type) := Fulfilled (a : A) | Rejected (e : js_error).
Arguments Fulfilled {A} a.
Arguments Rejected {A} e.

(** [v.id] and [v.length], the two property reads of the layer. *)
Definition get_prop (v : jsval) (k : string) : settled jsval :=
  match v with
  | JUndef | JNull =>
      Rejected (TypeError ("Cannot read properties of " +:+ to_str v +:+ " (reading '" +:+ k +:+ "')"))
  | JObj fs => Fulfilled (fget fs k)
  | JArr l => Fulfilled (if String.eqb k "length" then JNum (Z.of_nat (length l)) else JUndef)
  | JStr s => Fulfilled (if String.eqb k "length" then JNum (Z.of_nat (String.length s)) else JUndef)
  | _ => Fulfilled JUndef
  end.

(** [ToNumber(v)] for the values the layer compares; [None] is NaN.
    Strings convert when they are empty or a plain decimal integer literal. *)
Definition string_to_number (s : string) : option Z :=
  match s with
  | EmptyString => Some 0%Z
  | String "-" (String _ _ as t) => option_map (fun n => (- Z.of_N n)%Z) (parse_digits t 0)
  | _ => option_map Z.of_N (parse_digits s 0)
  end.

Definition to_number (v : jsval) : option Z :=
  match v with
  | JUndef => None
  | JNull => Some 0%Z
  | JBool b => Some (if b then 1 else 0)%Z
  | JNum z => Some z
  | JStr s => string_to_number s
  | JArr _ => string_to_number (to_str v)
  | JObj _ | JErr _ => None
  end.

(** [v[i]] for the non-array values an id argument can be. *)
Definition index_of (v : jsval) (i : nat) : jsval :=
  match v with
  | JStr s => if (i <? String.length s)%nat then JStr (String.substring i 1 s) else JUndef
  | JObj fs => fget fs (N_to_string (N.of_nat i))
  | _ => JUndef
  end.

(** ** The world: cache store, transport, and the trace of effects *)

(** A response of the HTTP library ([resolveWithFullResponse], [simple:false]),
    or the rejection it raises when no response arrives. *)
Record response := {
  statusCode : Z;
  headers : list (string * string);
  body : string
}.

Inductive transport_result :=
  | Answered (r : response)
  | NetFailure (msg : string).

(** The configuration the constructor settles: [defaultLang], [cacheTimeout]
    (the store's TTL in seconds) and [maxCacheObjects]. *)
Record config := {
  defaultLang : string;
  cacheTimeout : Z;
  maxCacheObjects : Z
}.

(** ** The memory store

    [cacheManager.caching({store: 'memory', max, ttl})] keeps its entries
    in an [lru-cache] with that [max]; a [max] that is not a positive number
    means no bound.  [get] of a present key makes it the most recently
    used; [set] stores the value, makes its key the most recently used, then
    drops the least recently used entries while more than [max] remain. *)

(** The bound on the number of entries, [None] for none. *)
Definition lru_bound (max : Z) : option nat :=
  if (0 <? max)%Z then Some (Z.to_nat max) else None.

(** The keys in order of use after a use of [k]. *)
Definition lru_use (k : string) (ks : list string) : list string :=
  k :: List.filter (fun k' => negb (String.eqb k' k)) ks.

(** The order of use after [get(k)]. *)
Definition lru_get (k : string) (c : gmap string jsval) (ks : list string) : list string :=
  match c !! k with Some _ => lru_use k ks | None => ks end.

(** The order of use after [get] of each key of [keys] in turn. *)
Definition lru_gets (c : gmap string jsval) (ks : list string) (keys : list string) : list string :=
  fold_left (fun ks k => lru_get k c ks) keys ks.

(** The entries and the order of use after [set(k, v)]. *)
Definition lru_set (max : Z) (k : string) (v : jsval) (c : gmap string jsval) (ks : list string)
  : gmap string jsval * list string :=
  let ks' := lru_use k ks in
  match lru_bound max with
  | Some n => (foldr delete (<[k := v]> c) (drop n ks'), take n ks')
  | None => (<[k := v]> c, ks')
  end.

(** Every stored key is in the order of use. *)
Definition lru_ok (c : gmap string jsval) (ks : list string) : Prop :=
  forall k x, c !! k = Some x -> In k ks.

(** Room for [m] more keys under the bound. *)
Definition lru_room (max : Z) (ks : list string) (m : nat) : Prop :=
  match lru_bound max with None => True | Some n => length ks + m <= n end.

(** The observable effects: a cache read, a cache write with the TTL it is
    stored with, and a transport call with its URL, query string and
    [Authorization] header. *)
Inductive event :=
  | EvCacheGet (key : string)
  | EvCacheSet (key : string) (v : jsval) (ttl : Z)
  | EvTransport (url : string) (qs : list (string * jsval)) (auth : option string).

(** The state: the store's entries, its keys from the most to the least
    recently used, and the effects so far. *)
Record world := {
  cache : gmap string jsval;
  recency : list string;
  trace : list event
}.

Definition M (A : Type) : Type := world -> A * world.

Definition ret {A} (a : A) : M A := fun w => (a, w).

Definition bind {A B} (m : M A) (f : A -> M B) : M B :=
  fun w => let '(a, w') := m w in f a w'.

Notation "x <-- m ;; k" := (bind m (fun x => k))
  (at level 100, m at next level, right associativity).

Definition emit (e : event) (w : world) : world :=
  {| cache := cache w; recency := recency w; trace := trace w ++ [e] |}.

Section Client.

Variable cfg : config.
(** The transport: [GET url] with a query string and an optional bearer
    token. *)
Variable transport : string -> list (string * jsval) -> option string -> transport_result.
(** [JSON.parse]; [None] when the body is malformed. *)
Variable json_parse : string -> option jsval.

(** [this.cache.get(key)]: [undefined] on a miss. *)
Definition cache_get (key : string) : M jsval :=
  fun w => (default JUndef (cache w !! key),
            {| cache := cache w; recency := lru_get key (cache w) (recency w);
               trace := trace w ++ [EvCacheGet key] |}).

(** [this.cache.set(key, value)]: no TTL is passed, so the store's TTL,
    [cacheTimeout], applies. *)
Definition cache_set (key : string) (v : jsval) : M unit :=
  fun w => (tt, {| cache := (lru_set (maxCacheObjects cfg) key v (cache w) (recency w)).1;
                  recency := (lru_set (maxCacheObjects cfg) key v (cache w) (recency w)).2;
                  trace := trace w ++ [EvCacheSet key v (cacheTimeout cfg)] |}).

Definition http_get (url : string) (qs : list (string * jsval)) (auth : option string)
  : M transport_result :=
  fun w => (transport url qs auth, emit (EvTransport url qs auth) w).

Definition _jsonParse (s : string) : settled jsval :=
  match json_parse s with
  | Some v => Fulfilled v
  | None => Rejected (JsonParseError s)
  end.

Definition _buildURL (path : string) : string :=
  "https://api.guildwars2.com/v2/" +:+ path.

Record request_result := {
  meta : list (string * jsval);
  data : jsval
}.

Definition header (r : response) (name : string) : jsval :=
  match list_find (fun h => h.1 = name) (headers r) with
  | Some (_, (_, v)) => JStr v
  | None => JUndef
  end.

(** [headers: {'Authorization': `Bearer ${apiKey}`}] when [apiKey] is truthy. *)
Definition auth_header (apiKey : jsval) : option string :=
  if truthy apiKey then Some ("Bearer " +:+ to_str apiKey) else None.

(** The fulfilment handler of the request promise:
    [response => { if (statusCode !== 200 && statusCode !== 206) throw ...;
    return { meta: ..., data: this._jsonParse(response.body) }; }], with a
    network failure already a rejection. *)
Definition settle_response (r : transport_result) : settled request_result :=
  match r with
  | NetFailure m => Rejected (NetworkError m)
  | Answered resp =>
      if negb (statusCode resp =? 200)%Z && negb (statusCode resp =? 206)%Z then
        Rejected (HttpStatusError (statusCode resp) (body resp))
      else
        match _jsonParse (body resp) with
        | Rejected e => Rejected e
        | Fulfilled d =>
            Fulfilled {| meta := [("pageSize", header resp "X-Page-Size");
                                  ("pageTotal", header resp "X-Page-Total");
                                  ("resultCount", header resp "X-Result-Count");
                                  ("resultTotal", header resp "X-Result-Total");
                                  ("httpStatus", JNum (statusCode resp))];
                         data := d |}
        end
  end.

(** [_request(path, parameters, apiKey)] *)
Definition _request (path : string) (parameters : list (string * jsval)) (apiKey : jsval)
  : M (settled request_result) :=
  r <-- http_get (_buildURL path) parameters (auth_header apiKey) ;;
  ret (settle_response r).

(** ** Cache keys *)

(** The first argument after the path of [_apiRequest] and
    [_apiDetailsRequest]: an object of query parameters, or any other value
    (which the code then takes as the api key). *)
Inductive arg :=
  | AObj (fs : list (string * jsval))
  | AVal (v : jsval).

(** [if (!(params instanceof Object)) { apiKey = params; params = {}; }] *)
Definition shift_args (params : arg) (apiKey : jsval) : list (string * jsval) * jsval :=
  match params with
  | AObj fs => (fs, apiKey)
  | AVal v => ([], v)
  end.

(** [if (!params.lang) params.lang = this.config.defaultLang;] *)
Definition with_lang (fs : list (string * jsval)) : list (string * jsval) :=
  if truthy (fget fs "lang") then fs else fset fs "lang" (JStr (defaultLang cfg)).

(** [`${JSON.stringify(params)}`] *)
Definition params_text (fs : list (string * jsval)) : string :=
  match stringify (JObj fs) with Some t => t | None => "undefined" end.

(** The cache key both request methods compute. *)
Definition cache_key (path : string) (fs : list (string * jsval)) (apiKey : jsval) : string :=
  if truthy apiKey then path +:+ "#apiKey:" +:+ to_str apiKey +:+ "#params:" +:+ params_text fs
  else path +:+ "#params:" +:+ params_text fs.

(** ** Cache helpers *)

(** The [ids] variable of [_findInCache] and [_apiDetailsRequest]: an array
    or a single non-array value. *)
Inductive cur_ids :=
  | IArr (l : list jsval)
  | IOne (v : jsval).

Fixpoint mapM {A B} (f : A -> M B) (l : list A) : M (list B) :=
  match l with
  | [] => ret []
  | x :: l' => y <-- f x ;; ys <-- mapM f l' ;; ret (y :: ys)
  end.

Definition _findInCacheSimple (baseKey : string) : M jsval := cache_get baseKey.

(** [_findInCache(baseKey, ids)]; the [Promise.all] of the array case is
    the array of the looked-up values, [undefined] for each miss. *)
Definition _findInCache (baseKey : string) (ids : cur_ids) : M jsval :=
  match ids with
  | IOne v =>
      if negb (truthy v) then _findInCacheSimple baseKey
      else cache_get (baseKey +:+ "#" +:+ to_str v)
  | IArr l =>
      vs <-- mapM (fun id => cache_get (baseKey +:+ "#" +:+ to_str id)) l ;;
      ret (JArr vs)
  end.

Definition _setCacheObject (key : string) (v : jsval) : M unit := cache_set key v.

(** The comparator [(a, b) => a.id - b.id]; a NaN result counts as 0. *)
Definition id_number (v : jsval) : option Z :=
  match get_prop v "id" with Fulfilled i => to_number i | Rejected _ => None end.

Definition cmp_by_id (a b : jsval) : Z :=
  match id_number a, id_number b with
  | Some x, Some y => (x - y)%Z
  | _, _ => 0%Z
  end.

(** [Array.prototype.sort(cmp)] as V8 runs it on fewer than 64 elements
    (a comparator result NaN counts as +0, as in SortCompare):
    [CountAndMakeRun] takes the run at the start of the array, non-descending,
    or strictly descending and then reversed; [BinaryInsertionSort] inserts
    each later element by binary search after the elements that do not
    compare greater.  From 64 elements on V8 sorts several such runs and
    merges them (TimSort); for a consistent comparator every stable sort,
    this one and V8's included, gives the same order, and for an
    inconsistent one ECMAScript leaves the order to the engine.

    [run_from cmp desc prev l]: how many elements of [l] continue the run
    after [prev]. *)
Fixpoint run_from {A} (cmp : A -> A -> Z) (desc : bool) (prev : A) (l : list A) : nat :=
  match l with
  | [] => 0
  | x :: l' =>
      let o := cmp x prev in
      if (if desc then (0 <=? o)%Z else (o <? 0)%Z) then 0 else S (run_from cmp desc x l')
  end.

(** [CountAndMakeRun(0, n)]: the run's length and whether it descends. *)
Definition count_run {A} (cmp : A -> A -> Z) (l : list A) : nat * bool :=
  match l with
  | x0 :: x1 :: l' =>
      let desc := (cmp x1 x0 <? 0)%Z in (2 + run_from cmp desc x1 l', desc)
  | _ => (length l, false)
  end.

(** The binary search of [BinaryInsertionSort] over the sorted prefix [a]
    between [left] and [right]; [fuel] bounds the halvings. *)
Fixpoint bin_search {A} (cmp : A -> A -> Z) (pivot : A) (a : list A) (fuel left right : nat) : nat :=
  match fuel with
  | O => left
  | S f =>
      if (left <? right)%nat then
        let mid := (left + (right - left) / 2)%nat in
        match a !! mid with
        | Some y =>
            if (cmp pivot y <? 0)%Z then bin_search cmp pivot a f left mid
            else bin_search cmp pivot a f (S mid) right
        | None => left
        end
      else left
  end.

Definition binary_insert {A} (cmp : A -> A -> Z) (a : list A) (pivot : A) : list A :=
  let i := bin_search cmp pivot a (S (length a)) 0 (length a) in
  take i a ++ pivot :: drop i a.

(** The sort: the run first, then the later elements in turn. *)
Definition sort_by {A} (cmp : A -> A -> Z) (l : list A) : list A :=
  let '(n, desc) := count_run cmp l in
  let run := take n l in
  fold_left (binary_insert cmp) (drop n l) (if desc then rev run else run).


Definition is_nullish (v : jsval) : bool :=
  match v with JUndef | JNull => true | _ => false end.

(** [o.id] of an element already known not to be [undefined]/[null]. *)
Definition prop_id (o : jsval) : jsval :=
  match get_prop o "id" with Fulfilled i => i | Rejected _ => JUndef end.

(** The loop [this._setCacheObject(`${baseKey}#${objects[i].id}`, objects[i])]. *)
Fixpoint setEach (baseKey : string) (objs : list jsval) : M unit :=
  match objs with
  | [] => ret tt
  | o :: objs' =>
      _ <-- _setCacheObject (baseKey +:+ "#" +:+ to_str (prop_id o)) o ;;
      setEach baseKey objs'
  end.

(** [_setCacheObjects(baseKey, objects)].  It sorts [objects] in place, so
    the value it returns is the caller's [requestResult.data] after the
    call.  Reading [.id] of an [undefined]/[null] element throws (in the
    comparator, which meets every element of an array of two or more, or
    in the loop) before anything is written.  An [undefined] element,
    which [JSON.parse] never produces, would instead be moved to the end by
    the sort without reaching the comparator and throw only in the loop;
    the model treats it like [null]. *)
Definition _setCacheObjects (baseKey : string) (objects : jsval) : M (settled jsval) :=
  match objects with
  | JArr l =>
      if existsb is_nullish l then
        ret (Rejected (TypeError "Cannot read properties of null (reading 'id')"))
      else
        let sorted := sort_by cmp_by_id l in
        _ <-- setEach baseKey sorted ;;
        ret (Fulfilled (JArr sorted))
  | _ =>
      match get_prop objects "id" with
      | Rejected e => ret (Rejected e)
      | Fulfilled i =>
          _ <-- _setCacheObject (baseKey +:+ "#" +:+ to_str i) objects ;;
          ret (Fulfilled objects)
      end
  end.

(** [_idListToParams(ids)] *)
Definition _idListToParams (ids : cur_ids) : list (string * jsval) :=
  match ids with
  | IArr l => [("ids", JStr (to_str (JArr l)))]
  | IOne v => [("id", v)]
  end.

(** ** The collection request *)

(** [_apiRequest(path, params, apiKey)].  The rejection handler of the
    transport call returns the error: the promise is fulfilled with the
    [Error] instance. *)
Definition _apiRequest (path : string) (params : arg) (apiKey : jsval) : M (settled jsval) :=
  let '(fs0, apiKey) := shift_args params apiKey in
  let fs := with_lang fs0 in
  let cacheKey := cache_key path fs apiKey in
  cacheResult <-- _findInCache cacheKey (IOne JUndef) ;;
  if truthy cacheResult then ret (Fulfilled cacheResult) else
  r <-- _request path fs apiKey ;;
  match r with
  | Fulfilled requestResult =>
      _ <-- _setCacheObject cacheKey (data requestResult) ;;
      ret (Fulfilled (data requestResult))
  | Rejected requestFailure => ret (Fulfilled (JErr requestFailure))
  end.

(** ** The detail request *)

(** The [ids] argument of [_apiDetailsRequest]: an array of integer ids, or
    any non-array value. *)
Inductive ids_arg :=
  | IdArray (l : list Z)
  | IdValue (v : jsval).

(** [ids.sort((a, b) => a - b)] *)
Definition sort_ids (l : list Z) : list Z := sort_by (fun a b => (a - b)%Z) l.

(** [objectLookup[k] = v]: an existing key keeps its position. *)
Fixpoint lset (o : list (pkey * jsval)) (k : pkey) (v : jsval) : list (pkey * jsval) :=
  match o with
  | [] => [(k, v)]
  | (k', v') :: o' => if pkey_eqb k k' then (k', v) :: o' else (k', v') :: lset o' k v
  end.

(** [Object.keys(objectLookup).map(key => objectLookup[key])] *)
Definition lookup_values (o : list (pkey * jsval)) : list jsval := map snd (own_order o).

(** The elements [ids[0]], ..., [ids[ids.length - 1]] the partition loop
    visits. *)
Definition loop_elems (ids : cur_ids) : settled (list jsval) :=
  match ids with
  | IArr l => Fulfilled l
  | IOne v =>
      match get_prop v "length" with
      | Rejected e => Rejected e
      | Fulfilled len =>
          match to_number len with
          | Some n => Fulfilled (map (index_of v) (seq 0 (Z.to_nat n)))
          | None => Fulfilled []
          end
      end
  end.

(** The partition loop: [cachedResult[i] === undefined] sends [ids[i]] to
    [idsNotInCache], otherwise [objectLookup[ids[i]] = cachedResult[i]]. *)
Fixpoint split_cached (elems cl : list jsval) (lk : list (pkey * jsval))
  : list jsval * list (pkey * jsval) :=
  match elems with
  | [] => ([], lk)
  | e :: es =>
      let c := match cl with [] => JUndef | c :: _ => c end in
      match c with
      | JUndef => let '(ni, lk') := split_cached es (tail cl) lk in (e :: ni, lk')
      | _ => split_cached es (tail cl) (lset lk (to_pkey e) c)
      end
  end.

(** [ids.length <= 0] *)
Definition length_le_zero (ids : cur_ids) : settled bool :=
  match ids with
  | IArr l => Fulfilled (Nat.eqb (length l) 0)
  | IOne v =>
      match get_prop v "length" with
      | Rejected e => Rejected e
      | Fulfilled len =>
          Fulfilled (match to_number len with Some n => (n <=? 0)%Z | None => false end)
      end
  end.

(** [objectLookup[requestResult.data[i].id] = requestResult.data[i]] over the
    (sorted) fetched objects. *)
Definition add_fetched (objectLookup : list (pkey * jsval)) (objs : list jsval)
  : list (pkey * jsval) :=
  fold_left (fun lk o => lset lk (to_pkey (prop_id o)) o) objs objectLookup.

(** The two handlers of the upstream request of [_apiDetailsRequest]: on
    success the fetched objects are cached and, for an array, merged into
    [objectLookup]; on failure the cached part is returned, or else the
    error itself. *)
Definition details_response (cacheKey : string) (objectLookup : list (pkey * jsval))
    (r : settled request_result) : M (settled jsval) :=
  match r with
  | Rejected requestFailure =>
      ret (Fulfilled (match objectLookup with
                      | [] => JErr requestFailure
                      | _ => JArr (lookup_values objectLookup)
                      end))
  | Fulfilled requestResult =>
      s <-- _setCacheObjects cacheKey (data requestResult) ;;
      match s with
      | Rejected e => ret (Rejected e)
      | Fulfilled (JArr objs) =>
          ret (Fulfilled (JArr (lookup_values (add_fetched objectLookup objs))))
      | Fulfilled d => ret (Fulfilled d)
      end
  end.

(** [_apiDetailsRequest(path, ids, params, apiKey)] *)
Definition _apiDetailsRequest (path : string) (ids0 : ids_arg) (params : arg) (apiKey0 : jsval)
  : M (settled jsval) :=
  let '(fs0, apiKey) := shift_args params apiKey0 in
  let fs := with_lang fs0 in
  let cacheKey := cache_key path fs apiKey in
  let ids := match ids0 with
             | IdArray l => IArr (map JNum (sort_ids l))
             | IdValue v => IOne v
             end in
  cachedResult <-- _findInCache cacheKey ids ;;
  let step : settled (option (cur_ids * list (pkey * jsval))) :=
    match cachedResult with
    | JArr cl =>
        match loop_elems ids with
        | Rejected e => Rejected e
        | Fulfilled es => let '(ni, lk) := split_cached es cl [] in Fulfilled (Some (IArr ni, lk))
        end
    | _ => if truthy cachedResult then Fulfilled None else Fulfilled (Some (ids, []))
    end in
  match step with
  | Rejected e => ret (Rejected e)
  | Fulfilled None => ret (Fulfilled cachedResult)
  | Fulfilled (Some (ids', objectLookup)) =>
      match length_le_zero ids' with
      | Rejected e => ret (Rejected e)
      | Fulfilled true => ret (Fulfilled cachedResult)
      | Fulfilled false =>
          r <-- _request path (_idListToParams ids') apiKey ;;
          details_response cacheKey objectLookup r
      end
  end.

End Client.

(** ** Derived names used in the statements *)

(** The query parameters and api key a request method works with after its
    argument shuffle and the language default. *)
Definition eff_params (cfg : config) (params : arg) (apiKey : jsval) : list (string * jsval) :=
  with_lang cfg (shift_args params apiKey).1.

Definition eff_key (params : arg) (apiKey : jsval) : jsval := (shift_args params apiKey).2.

(** The cache key of a request. *)
Definition request_key (cfg : config) (path : string) (params : arg) (apiKey : jsval) : string :=
  cache_key path (eff_params cfg params apiKey) (eff_key params apiKey).

(** The cache key of one id of a detail request. *)
Definition detail_key (cfg : config) (path : string) (params : arg) (apiKey : jsval) (z : Z)
  : string :=
  request_key cfg path params apiKey +:+ "#" +:+ Z_to_string z.

(** What the cache read of one id yields. *)
Definition cached_val (cfg : config) (w : world) (path : string) (params : arg) (apiKey : jsval)
  (z : Z) : jsval :=
  default JUndef (cache w !! detail_key cfg path params apiKey z).

Definition is_undef (v : jsval) : bool := match v with JUndef => true | _ => false end.

Definition is_transport (e : event) : bool :=
  match e with EvTransport _ _ _ => true | _ => false end.


(** ** Concrete scenarios *)

Definition cfg_en : config := {| defaultLang := "en"; cacheTimeout := 1800; maxCacheObjects := 1000 |}.

Definition item15 : jsval := JObj [("id", JNum 15); ("name", JStr "Abomination Hammer")].
Definition item2016 : jsval := JObj [("id", JNum 2016); ("name", JStr "Assassin's Recurve")].
Definition item9 : jsval := JObj [("id", JNum 9); ("name", JStr "Bronze Ingot")].

(** A JSON decoder for the bodies of the scenarios. *)
Definition parse_fixture (s : string) : option jsval :=
  if String.eqb s "[item15]" then Some (JArr [item15])
  else if String.eqb s "[item2016]" then Some (JArr [item2016])
  else if String.eqb s "[item15,item2016]" then Some (JArr [item15; item2016])
  else if String.eqb s "null" then Some JNull
  else None.

Definition ok_response (b : string) : transport_result :=
  Answered {| statusCode := 200; headers := []; body := b |}.

(** An upstream that knows items 15 and 2016, answers [ids=] queries with
    the known ones, and anything else with 404. *)
Definition upstream_items (url : string) (qs : list (string * jsval)) (auth : option string)
  : transport_result :=
  match qs with
  | [("ids", JStr s)] =>
      if String.eqb s "15" then ok_response "[item15]"
      else if String.eqb s "2016" then ok_response "[item2016]"
      else if String.eqb s "15,2016" then ok_response "[item15,item2016]"
      else if String.eqb s "15,15" then ok_response "[item15]"
      else Answered {| statusCode := 404; headers := []; body := "all ids provided are invalid" |}
  | _ => Answered {| statusCode := 404; headers := []; body := "not found" |}
  end.

(** An upstream that is down. *)
Definition upstream_down (url : string) (qs : list (string * jsval)) (auth : option string)
  : transport_result :=
  Answered {| statusCode := 503; headers := []; body := "Service Unavailable" |}.

(** An upstream whose answer is the JSON document [null]. *)
Definition upstream_null (url : string) (qs : list (string * jsval)) (auth : option string)
  : transport_result :=
  ok_response "null".

Definition w_empty : world := {| cache := ∅; recency := []; trace := [] |}.

(** A world where item 15 (and, for the second, item 2016) is cached under
    its detail key for the default parameters. *)
Definition w_15 : world :=
  {| cache := {[ detail_key cfg_en "items" (AVal JUndef) JUndef 15 := item15 ]};
     recency := [detail_key cfg_en "items" (AVal JUndef) JUndef 15]; trace := [] |}.

Definition w_15_2016 : world :=
  {| cache := <[ detail_key cfg_en "items" (AVal JUndef) JUndef 2016 := item2016 ]>
                {[ detail_key cfg_en "items" (AVal JUndef) JUndef 15 := item15 ]};
     recency := [detail_key cfg_en "items" (AVal JUndef) JUndef 2016;
                 detail_key cfg_en "items" (AVal JUndef) JUndef 15];
     trace := [] |}.



(** [m] only appends to the trace of effects. *)
Definition appends {A} (m : M A) : Prop :=
  forall w, exists rest, trace (snd (m w)) = trace w ++ rest.

(** An id that is an array index: the ids the lookup object orders. *)
Definition id_in_range (z : Z) : Prop := (0 <= z < Z.of_N max_index)%Z.

(** Every array the upstream answers with carries objects whose [id] is an
    integer array index. *)
Definition upstream_ids_ok (json_parse : string -> option jsval)
    (transport : string -> list (string * jsval) -> option string -> transport_result) : Prop :=
  forall u q a rr objs,
    settle_response json_parse (transport u q a) = Fulfilled rr -> data rr = JArr objs ->
    Forall (fun o => exists z, prop_id o = JNum z /\ id_in_range z) objs.


(** An upstream that answers every query with the same body. *)
Definition upstream_const (b : string) (url : string) (qs : list (string * jsval))
    (auth : option string) : transport_result :=
  ok_response b.

(** One step of a loop that stores [g x] under the key [f x] of a lookup
    object. *)
Definition upd {A} (f : A -> pkey) (g : A -> jsval) (lk : list (pkey * jsval)) (x : A)
  : list (pkey * jsval) :=
  lset lk (f x) (g x).

(** Orders on index entries, and index entries as lookup entries. *)
Definition le_fst {A} (a b : N * A) : Prop := (a.1 <= b.1)%N.
Definition lt_fst {A} (a b : N * A) : Prop := (a.1 < b.1)%N.
Definition as_index {A} (e : N * A) : pkey * A := (PIndex e.1, e.2).

(** ** Public methods *)

Section Methods.

Variable cfg : config.
Variable transport : string -> list (string * jsval) -> option string -> transport_result.
Variable json_parse : string -> option jsval.

(** [listItems(page, pageSize)] *)
Definition listItems (page pageSize : jsval) : M (settled jsval) :=
  _apiRequest cfg transport json_parse "items" (AObj [("page", page); ("page_size", pageSize)]) JUndef.

(** [getItems(ids)] *)
Definition getItems (ids : ids_arg) : M (settled jsval) :=
  _apiDetailsRequest cfg transport json_parse "items" ids (AVal JUndef) JUndef.

End Methods.

(** Lower case of ASCII letters.  Node's HTTP parser hands the header names
    of a response to the caller in lower case. *)
Definition lower_ascii (c : ascii) : ascii :=
  let k := N_of_ascii c in
  if ((65 <=? k) && (k <=? 90))%N then ascii_of_N (k + 32) else c.

Fixpoint lower (s : string) : string :=
  match s with
  | EmptyString => EmptyString
  | String c s' => String (lower_ascii c) (lower s')
  end.

(** A decoder for the fixtures above and three more bodies: the single
    object of item 15, a list of item ids, and a response header list. *)
Definition parse_item (s : string) : option jsval :=
  if String.eqb s "item15" then Some item15
  else if String.eqb s "[15,2016]" then Some (JArr [JNum 15; JNum 2016])
  else parse_fixture s.

(** A response as Node hands it over: header names in lower case. *)
Definition paged_response : response :=
  {| statusCode := 200; headers := [("x-page-size", "50"); ("x-page-total", "2")];
     body := "[item15]" |}.



(** * The earlier revision of the client, [src/src/gw2api.js]

    This revision has no api keys and no [meta]: [_request] accepts the
    status 200 only and sets the [lang] query parameter itself, cache keys
    start with the language, the detail request takes its ids only, and
    [_setCacheObjects] stores the answer objects by position. *)

Module Legacy.

(** [this.config] after the constructor's defaults. *)
Record config := {
  lang : string;
  cacheTimeout : Z;
  maxCacheObjects : Z
}.

(** What a rejected promise of this revision carries: the status [Error]
    of [_request], the parse [Error] of [_jsonParse], a network failure, a
    [TypeError], and the [Error] of [_idListToParams]. *)
Inductive error :=
  | LHttpError (status : Z) (body : string)
  | LParseError (body : string)
  | LNetError (msg : string)
  | LTypeError (msg : string)
  | LInvalidIds.

Inductive outcome (A : Type) := Ok (a : A) | Err (e : error).
Arguments Ok {A} a.
Arguments Err {A} e.

Definition of_js (e : js_error) : error :=
  match e with
  | HttpStatusError s b => LHttpError s b
  | JsonParseError b => LParseError b
  | NetworkError m => LNetError m
  | TypeError m => LTypeError m
  end.

(** The effects: cache reads and writes, transport calls (no
    [Authorization] header in this revision) and [console.log] lines. *)
Inductive event :=
  | EvCacheGet (key : string)
  | EvCacheSet (key : string) (v : jsval) (ttl : Z)
  | EvTransport (url : string) (qs : list (string * jsval))
  | EvLog (line : string).

Record world := {
  cache : gmap string jsval;
  recency : list string;
  trace : list event
}.

Definition M (A : Type) : Type := world -> A * world.

Definition ret {A} (a : A) : M A := fun w => (a, w).

Definition bind {A B} (m : M A) (f : A -> M B) : M B :=
  fun w => let '(a, w') := m w in f a w'.

Local Notation "x <<- m ;; k" := (bind m (fun x => k))
  (at level 100, m at next level, right associativity).

Definition emit (e : event) (w : world) : world :=
  {| cache := cache w; recency := recency w; trace := trace w ++ [e] |}.

Fixpoint mapM {A B} (f : A -> M B) (l : list A) : M (list B) :=
  match l with
  | [] => ret []
  | x :: l' => y <<- f x ;; ys <<- mapM f l' ;; ret (y :: ys)
  end.

(** [function isInt(n) { return Number(n) === n && n % 1 === 0; }]: true
    of numbers only, and all modelled numbers are integers. *)
Definition isInt (v : jsval) : bool := match v with JNum _ => true | _ => false end.

(** [ids.length > 0] *)
Definition length_gt_zero (ids : cur_ids) : outcome bool :=
  match ids with
  | IArr l => Ok (0 <? length l)%nat
  | IOne v =>
      match get_prop v "length" with
      | Rejected e => Err (of_js e)
      | Fulfilled len => Ok (match to_number len with Some n => (0 <? n)%Z | None => false end)
      end
  end.

(** [ids.filter((n, i) => { if (cachedResult[i] === undefined) {
    undefinedPositions.push(i); return true; } })]: the ids whose cached
    value is [undefined], and their positions from [i]. *)
Fixpoint missing_pos (ids cl : list jsval) (i : nat) : list jsval * list nat :=
  match ids with
  | [] => ([], [])
  | x :: ids' =>
      let '(ms, ps) := missing_pos ids' (tail cl) (S i) in
      match head cl with
      | None | Some JUndef => (x :: ms, i :: ps)
      | Some _ => (ms, ps)
      end
  end.

(** [for (i = 0; i < undefinedPositions.length; i++)
    cachedResult[undefinedPositions[i]] = requestResult[i];] *)
Fixpoint fill_positions (cl : list jsval) (ps : list nat) (rs : list jsval) : list jsval :=
  match ps with
  | [] => cl
  | p :: ps' => fill_positions (<[p := default JUndef (head rs)]> cl) ps' (tail rs)
  end.

(** [objects.sort((a, b) => a.id - b.id)] on the decoded answer.  The sort
    moves [undefined] elements to the end without comparing them; with two
    or more other elements every one of them meets the comparator, which
    throws on [null]. *)
Definition sort_objects (objects : jsval) : outcome (list jsval) :=
  match objects with
  | JArr l =>
      let defs := List.filter (fun o => negb (is_undef o)) l in
      if (2 <=? length defs)%nat && existsb (fun o => match o with JNull => true | _ => false end) defs
      then Err (LTypeError "Cannot read properties of null (reading 'id')")
      else Ok (sort_by cmp_by_id defs ++ List.filter is_undef l)
  | JUndef | JNull => Err (LTypeError ("Cannot read properties of " +:+ to_str objects +:+ " (reading 'sort')"))
  | _ => Err (LTypeError "objects.sort is not a function")
  end.

Definition ids_value (ids : cur_ids) : jsval :=
  match ids with IArr l => JArr l | IOne v => v end.

Section LegacyClient.

Variable cfg : config.
Variable transport : string -> list (string * jsval) -> transport_result.
Variable json_parse : string -> option jsval.

(** [this.cache.get(key)] *)
Definition cache_get (key : string) : M jsval :=
  fun w => (default JUndef (cache w !! key),
            {| cache := cache w; recency := lru_get key (cache w) (recency w);
               trace := trace w ++ [EvCacheGet key] |}).

(** [this.cache.set(key, value)] *)
Definition cache_set (key : string) (v : jsval) : M unit :=
  fun w => (tt, {| cache := (lru_set (maxCacheObjects cfg) key v (cache w) (recency w)).1;
                  recency := (lru_set (maxCacheObjects cfg) key v (cache w) (recency w)).2;
                  trace := trace w ++ [EvCacheSet key v (cacheTimeout cfg)] |}).

Definition console_log (line : string) : M unit := fun w => (tt, emit (EvLog line) w).

Definition http_get (url : string) (qs : list (string * jsval)) : M transport_result :=
  fun w => (transport url qs, emit (EvTransport url qs) w).

(** The fulfilment handler of the request promise: a status other than 200
    throws, otherwise the body is decoded with [_jsonParse]. *)
Definition settle (r : transport_result) : outcome jsval :=
  match r with
  | NetFailure m => Err (LNetError m)
  | Answered resp =>
      if negb (statusCode resp =? 200)%Z then Err (LHttpError (statusCode resp) (body resp))
      else match json_parse (body resp) with
           | Some d => Ok d
           | None => Err (LParseError (body resp))
           end
  end.

(** [_request(path, parameters)]: [parameters.lang = this.config.lang]. *)
Definition _request (path : string) (parameters : list (string * jsval)) : M (outcome jsval) :=
  r <<- http_get (_buildURL path) (fset parameters "lang" (JStr (lang cfg))) ;;
  ret (settle r).

Definition lang_key (baseKey : string) : string := lang cfg +:+ "#" +:+ baseKey.

Definition _findInCacheSimple (baseKey : string) : M jsval := cache_get (lang_key baseKey).

(** [_findInCache(baseKey, ids)] *)
Definition _findInCache (baseKey : string) (ids : cur_ids) : M (outcome jsval) :=
  let elem_get := fun x => cache_get (lang_key baseKey +:+ "#" +:+ to_str x) in
  match ids with
  | IOne v =>
      if negb (truthy v) then c <<- _findInCacheSimple baseKey ;; ret (Ok c)
      else if isInt v then c <<- elem_get v ;; ret (Ok c)
      else match loop_elems (IOne v) with
           | Rejected e => ret (Err (of_js e))
           | Fulfilled es => vs <<- mapM elem_get es ;; ret (Ok (JArr vs))
           end
  | IArr l => vs <<- mapM elem_get l ;; ret (Ok (JArr vs))
  end.

Definition _setCacheObject (baseKey : string) (v : jsval) : M unit := cache_set (lang_key baseKey) v.

(** [_setCacheObjects(baseKey, ids, objects)]; its value is [objects] as it
    is after the call (sorted in place). *)
Definition _setCacheObjects (baseKey : string) (ids : cur_ids) (objects : jsval) : M (outcome jsval) :=
  match ids with
  | IOne v =>
      if isInt v then _ <<- _setCacheObject (baseKey +:+ "#" +:+ to_str v) objects ;; ret (Ok objects)
      else match sort_objects objects, loop_elems (IOne v) with
           | Err e, _ => ret (Err e)
           | Ok _, Rejected e => ret (Err (of_js e))
           | Ok sorted, Fulfilled es =>
               _ <<- mapM (fun '(i, x) => cache_set (lang_key baseKey +:+ "#" +:+ to_str x)
                                           (nth i sorted JUndef)) (zip (seq 0 (length es)) es) ;;
               ret (Ok (JArr sorted))
           end
  | IArr l =>
      match sort_objects objects with
      | Err e => ret (Err e)
      | Ok sorted =>
          _ <<- mapM (fun '(i, x) => cache_set (lang_key baseKey +:+ "#" +:+ to_str x)
                                      (nth i sorted JUndef)) (zip (seq 0 (length l)) l) ;;
          ret (Ok (JArr sorted))
      end
  end.

(** [_idListToParams(ids)] *)
Definition _idListToParams (ids : cur_ids) : outcome (list (string * jsval)) :=
  match ids with
  | IArr l => Ok [("ids", JStr (to_str (JArr l)))]
  | IOne v => if isInt v then Ok [("id", v)] else Err LInvalidIds
  end.

(** [_apiRequest(path, page, pageSize)] *)
Definition _apiRequest (path : string) (page pageSize : jsval) : M (outcome jsval) :=
  let params := [("page", page); ("page_size", pageSize)] in
  let cacheKey := path +:+ "#params:" +:+ params_text params in
  c <<- _findInCache cacheKey (IOne JUndef) ;;
  match c with
  | Err e => ret (Err e)
  | Ok cacheResult =>
      if truthy cacheResult then ret (Ok cacheResult) else
      r <<- _request path params ;;
      match r with
      | Err e => ret (Err e)
      | Ok requestResult => _ <<- _setCacheObject cacheKey requestResult ;; ret (Ok requestResult)
      end
  end.

(** The part of [_apiDetailsRequest] after the cache lookup, from
    [if (ids.length > 0)] on. *)
Definition details_fetch (path : string) (ids : cur_ids) (ps : list nat) (cachedResult : jsval)
  : M (outcome jsval) :=
  match length_gt_zero ids with
  | Err e => ret (Err e)
  | Ok false => ret (Ok cachedResult)
  | Ok true =>
      _ <<- console_log (default "undefined" (stringify (ids_value ids))) ;;
      match _idListToParams ids with
      | Err e => ret (Err e)
      | Ok params =>
          r <<- _request path params ;;
          match r with
          | Err e => ret (Err e)
          | Ok requestResult =>
              s <<- _setCacheObjects path ids requestResult ;;
              match s with
              | Err e => ret (Err e)
              | Ok requestResult' =>
                  match cachedResult with
                  | JArr cl =>
                      let rs := match requestResult' with JArr rs => rs | _ => [] end in
                      ret (Ok (JArr (fill_positions cl ps rs)))
                  | _ => if truthy cachedResult then ret (Ok cachedResult) else ret (Ok requestResult')
                  end
              end
          end
      end
  end.

(** [_apiDetailsRequest(path, ids)] *)
Definition _apiDetailsRequest (path : string) (ids0 : ids_arg) : M (outcome jsval) :=
  let ids := match ids0 with
             | IdArray l => IArr (map JNum (sort_ids l))
             | IdValue v => IOne v
             end in
  c <<- _findInCache path ids ;;
  match c with
  | Err e => ret (Err e)
  | Ok (JArr cl) =>
      match ids with
      | IArr l => let '(ms, ps) := missing_pos l cl 0 in details_fetch path (IArr ms) ps (JArr cl)
      | IOne _ => ret (Err (LTypeError "ids.filter is not a function"))
      end
  | Ok cachedResult =>
      if truthy cachedResult then ret (Ok cachedResult)
      else details_fetch path ids [] cachedResult
  end.

End LegacyClient.

Definition is_get (e : event) : bool := match e with EvCacheGet _ => true | _ => false end.

(** The cached results with their [undefined] entries filled, in order,
    with the successive elements of [rs] ([undefined] once [rs] runs out). *)
Fixpoint merge_fill (cl rs : list jsval) : list jsval :=
  match cl with
  | [] => []
  | JUndef :: cl' => default JUndef (head rs) :: merge_fill cl' (tail rs)
  | c :: cl' => c :: merge_fill cl' rs
  end.

(** ** Scenarios *)

Definition lcfg_en : config := {| lang := "en"; cacheTimeout := 1800; maxCacheObjects := 1000 |}.

Definition lw_empty : world := {| cache := ∅; recency := []; trace := [] |}.

(** A world where item 15 is cached under its detail key. *)
Definition lw_15 : world :=
  {| cache := {[ "en#items#15" := item15 ]}; recency := ["en#items#15"]; trace := [] |}.

(** An upstream answering [b] with the status 200. *)
Definition lupstream_const (b : string) (url : string) (qs : list (string * jsval)) : transport_result :=
  ok_response b.

(** An upstream answering every request with a 206 (partial content). *)
Definition lupstream_partial (url : string) (qs : list (string * jsval)) : transport_result :=
  Answered {| statusCode := 206; headers := []; body := "[item15]" |}.

End Legacy.


(** * Properties *)

Ltac run_monad :=
  repeat (unfold bind, ret, emit, cache_get, cache_set, lru_get, http_get, _setCacheObject,
            _findInCacheSimple in *; simpl in *).

(** ** The memory store *)

Lemma lookup_foldr_delete (ds : list string) (c : gmap string jsval) (k : string) :
  k ∉ ds -> foldr delete c ds !! k = c !! k.
Proof.
  induction ds as [|d ds IH]; intros Hk; simpl; [reflexivity|].
  apply not_elem_of_cons in Hk as [Hne Hk]. rewrite lookup_delete_ne by congruence. by apply IH.
Qed.

Lemma lookup_foldr_delete_in (ds : list string) (c : gmap string jsval) (k : string) :
  k ∈ ds -> foldr delete c ds !! k = None.
Proof.
  induction ds as [|d ds IH]; intros Hk; simpl; [by apply elem_of_nil in Hk|].
  apply elem_of_cons in Hk as [->|Hk]; [by rewrite lookup_delete_eq|].
  destruct (decide (k = d)) as [->|Hne]; [by rewrite lookup_delete_eq|].
  rewrite lookup_delete_ne by congruence. by apply IH.
Qed.

Lemma lru_use_not_in_tail (k : string) (ks : list string) :
  k ∉ List.filter (fun k' => negb (String.eqb k' k)) ks.
Proof.
  intros Hk. apply list_elem_of_In, List.filter_In in Hk as [_ Hk].
  by rewrite String.eqb_refl in Hk.
Qed.

(** A write stores its value: the written key is the most recently used
    one and is never dropped. *)
Lemma lru_set_lookup_eq (max : Z) (k : string) (v : jsval) (c : gmap string jsval) (ks : list string) :
  (lru_set max k v c ks).1 !! k = Some v.
Proof.
  unfold lru_set, lru_bound, lru_use. destruct (0 <? max)%Z eqn:E; simpl.
  - apply Z.ltb_lt in E. destruct (Z.to_nat max) as [|n] eqn:En; [lia|]. simpl.
    rewrite lookup_foldr_delete.
    + by rewrite lookup_insert_eq.
    + intros Hk. apply list_elem_of_lookup in Hk as [i Hi]. rewrite lookup_drop in Hi.
      apply list_elem_of_lookup_2 in Hi. by apply lru_use_not_in_tail in Hi.
  - by rewrite lookup_insert_eq.
Qed.

(** Any other entry is kept or dropped. *)
Lemma lru_set_lookup_ne (max : Z) (k k' : string) (v : jsval) (c : gmap string jsval)
    (ks : list string) :
  k' <> k -> (lru_set max k v c ks).1 !! k' = c !! k' \/ (lru_set max k v c ks).1 !! k' = None.
Proof.
  intros Hne. unfold lru_set. destruct (lru_bound max); simpl.
  - destruct (decide (k' ∈ drop n (lru_use k ks))) as [Hin|Hin].
    + right. by apply lookup_foldr_delete_in.
    + left. rewrite lookup_foldr_delete by exact Hin. by rewrite lookup_insert_ne by congruence.
  - left. by rewrite lookup_insert_ne by congruence.
Qed.

Lemma cache_set_lookup_eq (cfg : config) (k : string) (v : jsval) (w : world) :
  cache (snd (cache_set cfg k v w)) !! k = Some v.
Proof. apply lru_set_lookup_eq. Qed.

Lemma lcache_set_lookup_eq (cfg : Legacy.config) (k : string) (v : jsval) (w : Legacy.world) :
  Legacy.cache (snd (Legacy.cache_set cfg k v w)) !! k = Some v.
Proof. apply lru_set_lookup_eq. Qed.

Lemma lru_use_in (k k' : string) (ks : list string) :
  In k' (lru_use k ks) <-> k' = k \/ In k' ks.
Proof.
  unfold lru_use. cbn [In]. rewrite List.filter_In.
  destruct (String.eqb_spec k' k) as [->|Hne]; cbn; naive_solver.
Qed.

Lemma filter_length_in (k : string) (ks : list string) :
  In k ks -> S (length (List.filter (fun k' => negb (String.eqb k' k)) ks)) <= length ks.
Proof.
  induction ks as [|k0 ks IH]; intros Hk; [destruct Hk|]. cbn [List.filter length].
  destruct (String.eqb_spec k0 k) as [->|Hne]; cbn [negb].
  - pose proof (List.filter_length_le (fun k' => negb (String.eqb k' k)) ks). lia.
  - destruct Hk as [->|Hk]; [congruence|]. specialize (IH Hk). cbn [length]. lia.
Qed.

Lemma lru_use_length (k : string) (ks : list string) :
  length (lru_use k ks) <= S (length ks).
Proof.
  unfold lru_use. cbn [length].
  pose proof (List.filter_length_le (fun k' => negb (String.eqb k' k)) ks). lia.
Qed.

Lemma lru_get_ok (k : string) (c : gmap string jsval) (ks : list string) :
  lru_ok c ks -> lru_ok c (lru_get k c ks) /\ length (lru_get k c ks) <= length ks.
Proof.
  intros Hok. unfold lru_get. destruct (c !! k) as [x|] eqn:E; [|split; [exact Hok|lia]].
  split.
  - intros k' x' Hk'. apply lru_use_in. right. exact (Hok k' x' Hk').
  - unfold lru_use. cbn [length]. apply filter_length_in. exact (Hok k x E).
Qed.

Lemma lru_gets_ok (c : gmap string jsval) (ks : list string) (keys : list string) :
  lru_ok c ks -> lru_ok c (lru_gets c ks keys) /\ length (lru_gets c ks keys) <= length ks.
Proof.
  unfold lru_gets. revert ks. induction keys as [|k keys IH]; intros ks Hok; cbn [fold_left].
  - split; [exact Hok|lia].
  - destruct (lru_get_ok k c ks Hok) as [H1 H2]. destruct (IH _ H1) as [H3 H4]. split; [exact H3|lia].
Qed.

Lemma lru_room_le (max : Z) (ks ks' : list string) (m : nat) :
  length ks' <= length ks -> lru_room max ks m -> lru_room max ks' m.
Proof. unfold lru_room. destruct (lru_bound max); lia. Qed.

(** With room for one more key, a write drops nothing. *)
Lemma lru_set_no_evict (max : Z) (k : string) (v : jsval) (c : gmap string jsval)
    (ks : list string) (m : nat) :
  lru_ok c ks -> lru_room max ks (S m) ->
  lru_set max k v c ks = (<[k := v]> c, lru_use k ks) /\
  lru_ok (<[k := v]> c) (lru_use k ks) /\ lru_room max (lru_use k ks) m.
Proof.
  intros Hok Hroom. pose proof (lru_use_length k ks) as Hl.
  split; [|split].
  - unfold lru_set, lru_room in *. destruct (lru_bound max) as [n|]; [|reflexivity].
    rewrite drop_ge by lia. rewrite take_ge by lia. reflexivity.
  - intros k' x Hk'. apply lru_use_in.
    destruct (String.eq_dec k' k) as [->|Hne]; [by left|right].
    rewrite lookup_insert_ne in Hk' by congruence. exact (Hok k' x Hk').
  - unfold lru_room in *. destruct (lru_bound max); lia.
Qed.
(** C10: a detail fetch with an empty array of ids is fulfilled with an empty
    array, and leaves the world untouched: no cache read or write and no
    transport call. *)
Theorem fetchDetails_empty_ids (cfg : config) transport json_parse (path : string)
    (params : arg) (apiKey : jsval) (w : world) :
  _apiDetailsRequest cfg transport json_parse path (IdArray []) params apiKey w
  = (Fulfilled (JArr []), w).
Proof.
  unfold _apiDetailsRequest. destruct (shift_args params apiKey) as [fs k].
  run_monad. destruct w; reflexivity.
Qed.

(** C4 (code defect): on a cache miss, a status other than 200/206 is turned
    into an [Error] carrying the status and the body, nothing is cached, but
    the rejection handler returns the error, so the promise is fulfilled with
    the [Error] instance instead of being rejected. *)
Theorem collection_error_status_is_fulfilled :
  _apiRequest cfg_en upstream_down parse_fixture "items" (AObj [("page", JNum 1)]) JUndef w_empty
  = (Fulfilled (JErr (HttpStatusError 503 "Service Unavailable")),
     {| cache := ∅; recency := [];
        trace := [EvCacheGet (request_key cfg_en "items" (AObj [("page", JNum 1)]) JUndef);
                  EvTransport (_buildURL "items") [("page", JNum 1); ("lang", JStr "en")] None] |}).
Proof. vm_compute. reflexivity. Qed.

(** C6 (code defect): the cache test is a truthiness test.  A first fetch
    whose answer is the JSON document [null] stores [null] under the key; a
    second identical fetch finds the key present but calls the transport
    again. *)
Theorem collection_falsy_hit_refetches :
  let w1 := snd (_apiRequest cfg_en upstream_null parse_fixture "achievements/daily"
                   (AVal JUndef) JUndef w_empty) in
  let key := request_key cfg_en "achievements/daily" (AVal JUndef) JUndef in
  cache w1 !! key = Some JNull /\
  trace (snd (_apiRequest cfg_en upstream_null parse_fixture "achievements/daily"
                (AVal JUndef) JUndef w1))
  = trace w1 ++ [EvCacheGet key;
                 EvTransport (_buildURL "achievements/daily") [("lang", JStr "en")] None;
                 EvCacheSet key JNull 1800].
Proof. vm_compute. split; reflexivity. Qed.

(** C5: on a cache miss, an answer with status 206 is handled exactly as one
    with status 200: the body is decoded, the decoded value is stored under
    the request's key with the configured TTL, and it is the fulfilled
    value. *)
Theorem collection_206_is_success (cfg : config) transport json_parse (path : string)
    (params : arg) (apiKey : jsval) (w : world) (r : response) (d : jsval) :
  cache w !! request_key cfg path params apiKey = None ->
  transport (_buildURL path) (eff_params cfg params apiKey) (auth_header (eff_key params apiKey))
    = Answered r ->
  (statusCode r = 200 \/ statusCode r = 206)%Z ->
  json_parse (body r) = Some d ->
  _apiRequest cfg transport json_parse path params apiKey w
  = (Fulfilled d,
     {| cache := (lru_set (maxCacheObjects cfg) (request_key cfg path params apiKey) d
                    (cache w) (recency w)).1;
        recency := (lru_set (maxCacheObjects cfg) (request_key cfg path params apiKey) d
                      (cache w) (recency w)).2;
        trace := trace w ++
                 [EvCacheGet (request_key cfg path params apiKey);
                  EvTransport (_buildURL path) (eff_params cfg params apiKey)
                    (auth_header (eff_key params apiKey));
                  EvCacheSet (request_key cfg path params apiKey) d (cacheTimeout cfg)] |}).
Proof.
  unfold request_key, eff_params, eff_key.
  intros Hmiss Htr Hst Hparse.
  unfold _apiRequest, _findInCache, _request, settle_response, _jsonParse.
  destruct (shift_args params apiKey) as [fs k]; simpl in *.
  run_monad. rewrite Hmiss, Htr. simpl.
  assert (Hok : (negb (statusCode r =? 200)%Z && negb (statusCode r =? 206)%Z) = false)
    by (destruct Hst as [-> | ->]; reflexivity).
  rewrite Hok, Hparse. simpl. rewrite <- !app_assoc. reflexivity.
Qed.

Lemma collection_206_is_success_witness :
  let r := {| statusCode := 206; headers := [("X-Page-Total", "3")]; body := "[item15]" |} in
  (cache w_empty !! request_key cfg_en "items" (AObj [("page", JNum 0)]) JUndef = None /\
   (fun _ _ _ => Answered r) (_buildURL "items") (eff_params cfg_en (AObj [("page", JNum 0)]) JUndef)
     (auth_header (eff_key (AObj [("page", JNum 0)]) JUndef)) = Answered r /\
   (statusCode r = 200 \/ statusCode r = 206)%Z /\
   parse_fixture (body r) = Some (JArr [item15])) /\
  _apiRequest cfg_en (fun _ _ _ => Answered r) parse_fixture "items" (AObj [("page", JNum 0)]) JUndef w_empty
  = (Fulfilled (JArr [item15]),
     {| cache := (lru_set (maxCacheObjects cfg_en) (request_key cfg_en "items" (AObj [("page", JNum 0)]) JUndef)
                    (JArr [item15]) (cache w_empty) (recency w_empty)).1;
        recency := (lru_set (maxCacheObjects cfg_en) (request_key cfg_en "items" (AObj [("page", JNum 0)]) JUndef)
                      (JArr [item15]) (cache w_empty) (recency w_empty)).2;
        trace := trace w_empty ++
                 [EvCacheGet (request_key cfg_en "items" (AObj [("page", JNum 0)]) JUndef);
                  EvTransport (_buildURL "items") (eff_params cfg_en (AObj [("page", JNum 0)]) JUndef)
                    (auth_header (eff_key (AObj [("page", JNum 0)]) JUndef));
                  EvCacheSet (request_key cfg_en "items" (AObj [("page", JNum 0)]) JUndef) (JArr [item15])
                    (cacheTimeout cfg_en)] |}).
Proof.
  intros r.
  assert (H : cache w_empty !! request_key cfg_en "items" (AObj [("page", JNum 0)]) JUndef = None /\
              (fun _ _ _ => Answered r) (_buildURL "items") (eff_params cfg_en (AObj [("page", JNum 0)]) JUndef)
                (auth_header (eff_key (AObj [("page", JNum 0)]) JUndef)) = Answered r /\
              (statusCode r = 200 \/ statusCode r = 206)%Z /\
              parse_fixture (body r) = Some (JArr [item15]))
    by (split; [reflexivity | split; [reflexivity | split; [right; reflexivity | vm_compute; reflexivity]]]).
  split; [exact H |].
  destruct H as (H1 & H2 & H3 & H4).
  exact (collection_206_is_success cfg_en (fun _ _ _ => Answered r) parse_fixture "items"
           (AObj [("page", JNum 0)]) JUndef w_empty r (JArr [item15]) H1 H2 H3 H4).
Defined.

(** C9 (counterexample): a detail fetch with an object as its id, which is
    neither an id nor an array of ids, is not refused before any I/O: the
    cache is read and the transport is called. *)
Lemma fetchDetails_invalid_ids_cex :
  ~ (exists e,
       fst (_apiDetailsRequest cfg_en upstream_items parse_fixture "items" (IdValue (JObj []))
              (AVal JUndef) JUndef w_empty) = Rejected e /\
       trace (snd (_apiDetailsRequest cfg_en upstream_items parse_fixture "items" (IdValue (JObj []))
                     (AVal JUndef) JUndef w_empty)) = trace w_empty).
Proof. vm_compute. intros (e & H1 & H2). discriminate H1. Qed.

(** ** Effects are only ever appended to the trace *)

Create HintDb appends.

Lemma appends_ret {A} (a : A) : appends (ret a).
Proof. intros w. exists []. by rewrite app_nil_r. Qed.

Lemma appends_bind {A B} (m : M A) (f : A -> M B) :
  appends m -> (forall a, appends (f a)) -> appends (bind m f).
Proof.
  intros Hm Hf w. unfold bind. destruct (m w) as [a w'] eqn:E.
  destruct (Hm w) as [r1 H1]. rewrite E in H1. simpl in H1.
  destruct (Hf a w') as [r2 H2]. exists (r1 ++ r2). by rewrite H2, H1, app_assoc.
Qed.

Lemma appends_cache_get k : appends (cache_get k).
Proof. intros w. eexists. reflexivity. Qed.

Lemma appends_cache_set cfg k v : appends (cache_set cfg k v).
Proof. intros w. eexists. reflexivity. Qed.

Lemma appends_http_get transport u q a : appends (http_get transport u q a).
Proof. intros w. eexists. reflexivity. Qed.

#[local] Hint Resolve appends_ret appends_bind appends_cache_get appends_cache_set
  appends_http_get : appends.

Lemma appends_setEach cfg k l : appends (setEach cfg k l).
Proof. induction l; simpl; unfold _setCacheObject; auto with appends. Qed.

#[local] Hint Resolve appends_setEach : appends.

Lemma appends_setCacheObjects cfg k d : appends (_setCacheObjects cfg k d).
Proof.
  unfold _setCacheObjects, _setCacheObject.
  destruct d; try destruct (existsb _ _); try destruct (get_prop _ _); auto with appends.
Qed.

Lemma appends_request transport json_parse path qs k : appends (_request transport json_parse path qs k).
Proof. unfold _request. auto with appends. Qed.

#[local] Hint Resolve appends_setCacheObjects appends_request : appends.

(** The detail request once the transport has answered. *)
Lemma appends_details_response cfg cacheKey objectLookup (r : settled request_result) :
  appends (details_response cfg cacheKey objectLookup r).
Proof.
  unfold details_response. destruct r; auto with appends.
  apply appends_bind; auto with appends. intros [[] |]; auto with appends.
Qed.

Lemma bind_run {A B} (m : M A) (f : A -> M B) (w : world) :
  bind m f w = f (fst (m w)) (snd (m w)).
Proof. unfold bind. by destruct (m w). Qed.

Lemma request_run transport json_parse path qs k (w : world) :
  _request transport json_parse path qs k w
  = (settle_response json_parse (transport (_buildURL path) qs (auth_header k)),
     emit (EvTransport (_buildURL path) qs (auth_header k)) w).
Proof. reflexivity. Qed.

(** C9 (as the code does it): the ids argument is not validated.  A truthy
    non-array value [v] is looked up in the cache under
    [<request key>#String(v)] and, on a miss (when [v.length <= 0] does not
    hold), is sent upstream as the single [id] query parameter, with no error
    raised before these two effects. *)
Theorem fetchDetails_no_id_validation (cfg : config) transport json_parse (path : string)
    (params : arg) (apiKey : jsval) (w : world) (v : jsval) :
  truthy v = true ->
  is_array v = false ->
  cache w !! (request_key cfg path params apiKey +:+ "#" +:+ to_str v) = None ->
  length_le_zero (IOne v) = Fulfilled false ->
  exists rest,
    trace (snd (_apiDetailsRequest cfg transport json_parse path (IdValue v) params apiKey w))
    = trace w ++ [EvCacheGet (request_key cfg path params apiKey +:+ "#" +:+ to_str v);
                  EvTransport (_buildURL path) [("id", v)] (auth_header (eff_key params apiKey))]
              ++ rest.
Proof.
  unfold request_key, eff_params, eff_key.
  intros Htruthy Harr Hmiss Hlen.
  unfold _apiDetailsRequest, _findInCache.
  destruct (shift_args params apiKey) as [fs k]; cbn [fst snd] in *.
  rewrite Htruthy. cbn [negb].
  rewrite bind_run. unfold cache_get at 1 2. cbn [fst snd]. rewrite Hmiss. cbn [default].
  cbn -[length_le_zero _request details_response bind].
  rewrite Hlen. cbn [_idListToParams].
  rewrite bind_run, request_run. cbn [fst snd].
  match goal with
  | |- context [details_response cfg ?key [] ?r ?w1] =>
      destruct (appends_details_response cfg key [] r w1) as [rest Hr]
  end.
  exists rest. etransitivity; [exact Hr |]. unfold emit; simpl. rewrite <- !app_assoc. reflexivity.
Qed.

Lemma fetchDetails_no_id_validation_witness :
  (truthy (JObj []) = true /\ is_array (JObj []) = false /\
   cache w_empty !! (request_key cfg_en "items" (AVal JUndef) JUndef +:+ "#" +:+ to_str (JObj [])) = None /\
   length_le_zero (IOne (JObj [])) = Fulfilled false) /\
  exists rest,
    trace (snd (_apiDetailsRequest cfg_en upstream_items parse_fixture "items" (IdValue (JObj []))
                  (AVal JUndef) JUndef w_empty))
    = trace w_empty ++
      [EvCacheGet (request_key cfg_en "items" (AVal JUndef) JUndef +:+ "#" +:+ to_str (JObj []));
       EvTransport (_buildURL "items") [("id", JObj [])] (auth_header (eff_key (AVal JUndef) JUndef))]
      ++ rest.
Proof.
  assert (H : truthy (JObj []) = true /\ is_array (JObj []) = false /\
              cache w_empty !! (request_key cfg_en "items" (AVal JUndef) JUndef +:+ "#" +:+ to_str (JObj [])) = None /\
              length_le_zero (IOne (JObj [])) = Fulfilled false)
    by (vm_compute; repeat split).
  split; [exact H |].
  destruct H as (H1 & H2 & H3 & H4).
  exact (fetchDetails_no_id_validation cfg_en upstream_items parse_fixture "items" (AVal JUndef) JUndef
           w_empty (JObj []) H1 H2 H3 H4).
Defined.


(** ** String lemmas *)



Lemma sapp_cons c (s t : string) : String c s +:+ t = String c (s +:+ t).
Proof. reflexivity. Qed.

Lemma sapp_assoc (a b c : string) : (a +:+ b) +:+ c = a +:+ (b +:+ c).
Proof. induction a as [|x a IH]; [reflexivity|]. rewrite !sapp_cons. by rewrite IH. Qed.

Lemma sapp_inv_head (a b c : string) : a +:+ b = a +:+ c -> b = c.
Proof. apply String.app_inj. Qed.

Lemma sapp_length (a b : string) : String.length (a +:+ b) = (String.length a + String.length b)%nat.
Proof. induction a as [|x a IH]; [reflexivity|]. rewrite sapp_cons. simpl. by rewrite IH. Qed.


Ltac sassoc := rewrite ?sapp_assoc in *.

















(** ** Lookup objects *)

Lemma pkey_eqb_spec (a b : pkey) : pkey_eqb a b = true <-> a = b.
Proof.
  destruct a as [m|s], b as [n|t]; simpl; split; intros H; try discriminate.
  - apply N.eqb_eq in H. by subst.
  - injection H as ->. apply N.eqb_refl.
  - apply String.eqb_eq in H. by subst.
  - injection H as ->. apply String.eqb_refl.
Qed.

Lemma pkey_eqb_false (a b : pkey) : pkey_eqb a b = false <-> a <> b.
Proof.
  split; intros H.
  - intros E. apply pkey_eqb_spec in E. congruence.
  - destruct (pkey_eqb a b) eqn:E; [|reflexivity]. apply pkey_eqb_spec in E. contradiction.
Qed.

Lemma lset_keys (o : list (pkey * jsval)) (k : pkey) (v : jsval) (k' : pkey) :
  In k' (map fst (lset o k v)) <-> k' = k \/ In k' (map fst o).
Proof.
  induction o as [|[k0 v0] o IH]; simpl.
  { split; [intros [<-|[]]; by left | intros [->|[]]; by left]. }
  destruct (pkey_eqb k k0) eqn:E; simpl.
  - apply pkey_eqb_spec in E. subst. split; [tauto|]. intros [->|H]; tauto.
  - rewrite IH. split; intros H; decompose [or] H; subst; tauto.
Qed.

Lemma lset_nodup (o : list (pkey * jsval)) (k : pkey) (v : jsval) :
  NoDup (map fst o) -> NoDup (map fst (lset o k v)).
Proof.
  induction o as [|[k0 v0] o IH]; simpl; intros Hnd.
  - apply NoDup_singleton.
  - inversion Hnd as [|? ? Hni Hnd']; subst.
    destruct (pkey_eqb k k0) eqn:E; simpl.
    + by constructor.
    + constructor; [|by apply IH]. rewrite list_elem_of_In, lset_keys.
      intros [->|H]; [by apply pkey_eqb_false in E | apply Hni; by apply list_elem_of_In].
Qed.

Lemma lset_sound (o : list (pkey * jsval)) (k : pkey) (v : jsval) (e : pkey * jsval) :
  In e (lset o k v) -> In e o \/ e = (k, v).
Proof.
  induction o as [|[k0 v0] o IH]; simpl.
  - intros [<-|[]]. by right.
  - destruct (pkey_eqb k k0) eqn:E; simpl.
    + apply pkey_eqb_spec in E. subst. intros [<-|H]; [by right | by left; right].
    + intros [<-|H]; [by left; left|]. destruct (IH H); [by left; right | by right].
Qed.

Section Updates.
Context {A : Type} (f : A -> pkey) (g : A -> jsval).

Lemma upd_keys (xs : list A) (acc : list (pkey * jsval)) (k : pkey) :
  In k (map fst (fold_left (upd f g) xs acc)) <-> In k (map fst acc) \/ exists x, In x xs /\ k = f x.
Proof.
  revert acc. induction xs as [|x xs IH]; intros acc; simpl.
  - split; [tauto|]. intros [H|(x & [] & _)]. exact H.
  - rewrite IH. unfold upd at 1. rewrite lset_keys. split.
    + intros [[->|H]|(y & Hy & ->)]; [right; exists x; tauto | by left | right; exists y; tauto].
    + intros [H|(y & [<-|Hy] & ->)]; [left; by right | left; by left | right; exists y; tauto].
Qed.

Lemma upd_nodup (xs : list A) (acc : list (pkey * jsval)) :
  NoDup (map fst acc) -> NoDup (map fst (fold_left (upd f g) xs acc)).
Proof.
  revert acc. induction xs as [|x xs IH]; intros acc H; simpl; [exact H|].
  apply IH. by apply lset_nodup.
Qed.

Lemma upd_sound (xs : list A) (acc : list (pkey * jsval)) (e : pkey * jsval) :
  In e (fold_left (upd f g) xs acc) -> In e acc \/ exists x, In x xs /\ e = (f x, g x).
Proof.
  revert acc. induction xs as [|x xs IH]; intros acc H; simpl in *; [by left|].
  destruct (IH _ H) as [H1|(y & Hy & ->)].
  - destruct (lset_sound _ _ _ _ H1) as [H2| ->]; [by left | right; exists x; tauto].
  - right. exists y. tauto.
Qed.

End Updates.

(** ** Own-property order of index keys *)


Lemma insert_index_perm {A} (n : N) (x : A) (l : list (N * A)) :
  Permutation (insert_index n x l) ((n, x) :: l).
Proof.
  induction l as [|[m y] l IH]; simpl; [reflexivity|].
  destruct (n <? m)%N; [reflexivity|].
  etransitivity; [apply perm_skip, IH | apply perm_swap].
Qed.

Lemma insert_index_hd {A} (n : N) (x : A) (m : N) (y : A) (l : list (N * A)) :
  (m <= n)%N -> HdRel le_fst (m, y) l -> HdRel le_fst (m, y) (insert_index n x l).
Proof.
  intros Hmn Hhd. destruct l as [|[k z] l]; simpl.
  - constructor. exact Hmn.
  - destruct (n <? k)%N; constructor; [exact Hmn|]. by inversion Hhd.
Qed.

Lemma insert_index_sorted {A} (n : N) (x : A) (l : list (N * A)) :
  Sorted le_fst l -> Sorted le_fst (insert_index n x l).
Proof.
  induction l as [|[m y] l IH]; intros Hs; simpl.
  - repeat constructor.
  - inversion Hs as [|? ? Hs' Hhd]; subst.
    destruct (n <? m)%N eqn:E.
    + constructor; [exact Hs|]. constructor. unfold le_fst; simpl. apply N.ltb_lt in E. lia.
    + constructor; [by apply IH|]. apply insert_index_hd; [|exact Hhd].
      apply N.ltb_ge in E. exact E.
Qed.

Lemma index_fold {A} (lk : list (pkey * A)) (acc : list (N * A)) :
  Forall (fun e => is_name e = false) lk -> Sorted le_fst acc ->
  Sorted le_fst (fold_left index_entry lk acc) /\
  Permutation (map as_index (fold_left index_entry lk acc)) (map as_index acc ++ lk).
Proof.
  revert acc. induction lk as [|[k x] lk IH]; intros acc Hall Hs; simpl.
  - by rewrite app_nil_r.
  - inversion Hall as [|? ? Hk Hall']; subst.
    destruct k as [n|s]; [|discriminate Hk]. simpl.
    destruct (IH (insert_index n x acc) Hall' (insert_index_sorted n x acc Hs)) as [H1 H2].
    split; [exact H1|]. rewrite H2.
    rewrite (Permutation_map as_index (insert_index_perm n x acc)). simpl.
    unfold as_index at 1; simpl. apply Permutation_middle.
Qed.

Lemma sorted_strict {A} (l : list (N * A)) :
  Sorted le_fst l -> List.NoDup (map fst l) -> Sorted lt_fst l.
Proof.
  induction 1 as [|a l Hs IH Hhd]; intros Hnd; constructor.
  - apply IH. by inversion Hnd.
  - inversion Hnd as [|? ? Hni _]; subst. destruct l as [|b l]; constructor.
    inversion Hhd as [|? ? Hab]; subst. unfold le_fst, lt_fst in *.
    assert (a.1 <> b.1) by (intros E; apply Hni; left; by rewrite E). lia.
Qed.

(** The values [Object.keys(o).map(k => o[k])] of a lookup object whose keys
    are distinct array indices: ascending by index. *)
Lemma lookup_values_sorted (lk : list (pkey * jsval)) :
  NoDup (map fst lk) -> Forall (fun e => is_name e = false) lk ->
  exists S, lookup_values lk = map snd S /\ Sorted lt_fst S /\
    (forall n v, In (n, v) S <-> In (PIndex n, v) lk).
Proof.
  intros Hnd Hall.
  destruct (index_fold lk [] Hall (Sorted_nil _)) as [Hs Hp]. simpl in Hp.
  exists (fold_left index_entry lk []).
  assert (Hf : List.filter is_name lk = []).
  { clear -Hall. induction Hall as [|e lk He _ IH]; [reflexivity|]. simpl. by rewrite He. }
  assert (Hin : forall n v, In (n, v) (fold_left index_entry lk []) <-> In (PIndex n, v) lk).
  { intros n v. split; intros H.
    - apply (Permutation_in _ Hp). apply in_map_iff. by exists (n, v).
    - apply (Permutation_in _ (Permutation_sym Hp)) in H. apply in_map_iff in H.
      destruct H as ([m y] & E & H). unfold as_index in E. simpl in E. by injection E as -> ->. }
  split; [|split; [|exact Hin]].
  - unfold lookup_values, own_order. rewrite Hf, app_nil_r, map_map. reflexivity.
  - apply sorted_strict; [exact Hs|].
    apply NoDup_ListNoDup in Hnd.
    apply (List.NoDup_map_inv PIndex).
    rewrite map_map.
    apply (Permutation_NoDup (l := map fst lk)); [|exact Hnd].
    apply Permutation_sym.
    replace (map (fun x : N * jsval => PIndex x.1) (fold_left index_entry lk []))
      with (map fst (map as_index (fold_left index_entry lk []))) by (rewrite map_map; reflexivity).
    by apply Permutation_map.
Qed.

Lemma sorted_lt_Z {A} (S : list (N * A)) :
  Sorted lt_fst S -> Sorted Z.lt (map (fun e => Z.of_N e.1) S).
Proof.
  induction 1 as [|a l Hs IH Hhd]; simpl; constructor; [exact IH|].
  destruct l as [|b l]; simpl; constructor. inversion Hhd; subst. unfold lt_fst in *. lia.
Qed.

(** ** Sorting *)

Lemma binary_insert_perm {A} (cmp : A -> A -> Z) (a : list A) (x : A) :
  Permutation (binary_insert cmp a x) (x :: a).
Proof.
  unfold binary_insert. rewrite <- Permutation_middle. by rewrite take_drop.
Qed.

Lemma fold_binary_insert_perm {A} (cmp : A -> A -> Z) (xs a : list A) :
  Permutation (fold_left (binary_insert cmp) xs a) (a ++ xs).
Proof.
  revert a. induction xs as [|x xs IH]; intros a; simpl.
  - by rewrite app_nil_r.
  - rewrite IH, binary_insert_perm. rewrite <- Permutation_middle. reflexivity.
Qed.

Lemma sort_by_perm {A} (cmp : A -> A -> Z) (l : list A) : Permutation (sort_by cmp l) l.
Proof.
  unfold sort_by. destruct (count_run cmp l) as [n desc].
  rewrite fold_binary_insert_perm.
  transitivity (take n l ++ drop n l); [|by rewrite take_drop].
  apply Permutation_app_tail. destruct desc; [apply Permutation_sym, Permutation_rev | reflexivity].
Qed.


Lemma ss_lookup (a : list Z) i j x y :
  StronglySorted Z.le a -> (i < j)%nat -> a !! i = Some x -> a !! j = Some y -> (x <= y)%Z.
Proof.
  intros Hs. revert i j. induction Hs as [|z a Hs IH Hall]; intros i j Hij Hx Hy; [done|].
  destruct i as [|i]; destruct j as [|j]; simpl in *; try lia.
  - injection Hx as <-. rewrite List.Forall_forall in Hall. apply Hall.
    apply list_elem_of_In. by apply list_elem_of_lookup_2 in Hy.
  - apply (IH i j); [lia|done|done].
Qed.

Lemma bin_search_spec (p : Z) (a : list Z) fuel lo hi :
  StronglySorted Z.le a -> (hi <= length a)%nat -> (lo <= hi)%nat -> (hi - lo < fuel)%nat ->
  (forall j y, (j < lo)%nat -> a !! j = Some y -> y <= p)%Z ->
  (forall j y, (hi <= j)%nat -> a !! j = Some y -> p < y)%Z ->
  let i := bin_search (fun a b => (a - b)%Z) p a fuel lo hi in
  (forall j y, (j < i)%nat -> a !! j = Some y -> y <= p)%Z /\
  (forall j y, (i <= j)%nat -> a !! j = Some y -> p < y)%Z.
Proof.
  intros Hs. revert lo hi. induction fuel as [|f IH]; intros lo hi Hhi Hlo Hf Hl Hr; [lia|].
  cbn [bin_search]. cbv beta. destruct (lo <? hi)%nat eqn:E.
  - apply Nat.ltb_lt in E.
    assert (Hd : ((hi - lo) / 2 < hi - lo)%nat) by (apply Nat.div_lt; lia).
    set (mid := (lo + (hi - lo) / 2)%nat).
    assert (Hmid : (lo <= mid < hi)%nat) by (unfold mid; lia).
    destruct (a !! mid) as [y|] eqn:Ey.
    2:{ apply lookup_ge_None in Ey. lia. }
    destruct (p - y <? 0)%Z eqn:Ec.
    + apply Z.ltb_lt in Ec. apply IH; [lia|lia|lia|exact Hl|].
      intros j z Hj Hz.
      assert (y <= z)%Z.
      { destruct (decide (j = mid)) as [->|Hne]; [rewrite Ey in Hz; injection Hz; lia|].
        apply (ss_lookup a mid j); auto; lia. }
      lia.
    + apply Z.ltb_ge in Ec. apply IH; [lia|lia|lia| |exact Hr].
      intros j z Hj Hz.
      assert (z <= y)%Z.
      { destruct (decide (j = mid)) as [->|Hne]; [rewrite Ey in Hz; injection Hz; lia|].
        apply (ss_lookup a j mid); auto; lia. }
      lia.
  - apply Nat.ltb_ge in E. split; [exact Hl|]. intros j y Hj Hy. apply Hr with j; [lia|exact Hy].
Qed.

Lemma binary_insert_sorted (a : list Z) (p : Z) :
  StronglySorted Z.le a -> StronglySorted Z.le (binary_insert (fun a b => (a - b)%Z) a p).
Proof.
  intros Hs. unfold binary_insert.
  destruct (bin_search_spec p a (S (length a)) 0 (length a) Hs ltac:(lia) ltac:(lia) ltac:(lia)
              ltac:(intros; lia)
              ltac:(intros j y Hj Hy; apply lookup_lt_Some in Hy; lia)) as [Hl Hr].
  set (i := bin_search _ p a _ 0 (length a)) in *.
  rewrite <- (take_drop i a) in Hs.
  assert (Hlo : Forall (fun y => y <= p)%Z (take i a)).
  { apply Forall_lookup. intros j y Hy. rewrite lookup_take_Some in Hy. destruct Hy as [Hy Hj].
    exact (Hl j y Hj Hy). }
  assert (Hhi : Forall (fun y => p < y)%Z (drop i a)).
  { apply Forall_lookup. intros j y Hy. rewrite lookup_drop in Hy. apply (Hr (i + j)%nat y); [lia|exact Hy]. }
  clear Hl Hr. revert Hs Hlo. generalize (take i a) as pre. intros pre Hs Hlo.
  induction pre as [|x pre IH]; simpl in *.
  - constructor; [exact Hs|]. rewrite List.Forall_forall in *. intros y Hy. specialize (Hhi y Hy). lia.
  - inversion Hs as [|? ? Hs' Hall]; subst. inversion Hlo as [|? ? Hx Hlo']; subst.
    constructor; [by apply IH|].
    rewrite List.Forall_forall in *. intros y Hy. apply in_app_or in Hy as [Hy|[<-|Hy]].
    + apply Hall, in_or_app. by left.
    + exact Hx.
    + apply Hall, in_or_app. by right.
Qed.

Lemma run_from_asc (prev : Z) (l : list Z) :
  StronglySorted Z.le (prev :: take (run_from (fun a b => (a - b)%Z) false prev l) l).
Proof.
  revert prev. induction l as [|x l IH]; intros prev; simpl.
  - repeat constructor.
  - destruct (x - prev <? 0)%Z eqn:E; simpl; [repeat constructor|].
    apply Z.ltb_ge in E. specialize (IH x). constructor; [exact IH|].
    inversion IH as [|? ? _ Hall]; subst. constructor; [lia|].
    rewrite List.Forall_forall in *. intros y Hy. specialize (Hall y Hy). lia.
Qed.

Lemma run_from_desc (prev : Z) (l : list Z) :
  StronglySorted Z.ge (prev :: take (run_from (fun a b => (a - b)%Z) true prev l) l).
Proof.
  revert prev. induction l as [|x l IH]; intros prev; simpl.
  - repeat constructor.
  - destruct (0 <=? x - prev)%Z eqn:E; simpl; [repeat constructor|].
    apply Z.leb_gt in E. specialize (IH x). constructor; [exact IH|].
    inversion IH as [|? ? _ Hall]; subst. constructor; [lia|].
    rewrite List.Forall_forall in *. intros y Hy. specialize (Hall y Hy). lia.
Qed.

Lemma ss_snoc (l : list Z) (x : Z) :
  StronglySorted Z.le l -> Forall (fun y => y <= x)%Z l -> StronglySorted Z.le (l ++ [x]).
Proof.
  induction 1 as [|y l Hs IH Hall]; intros Hx; simpl.
  - repeat constructor.
  - inversion Hx as [|? ? Hy Hx']; subst. constructor; [by apply IH|].
    apply List.Forall_app. split; [exact Hall|]. by constructor.
Qed.

Lemma ss_rev_ge (l : list Z) : StronglySorted Z.ge l -> StronglySorted Z.le (rev l).
Proof.
  induction 1 as [|y l Hs IH Hall]; simpl; [constructor|].
  apply ss_snoc; [exact IH|]. apply List.Forall_rev.
  rewrite List.Forall_forall in *. intros z Hz. specialize (Hall z Hz). lia.
Qed.

Lemma sort_ids_sorted (l : list Z) : Sorted Z.le (sort_ids l).
Proof.
  apply StronglySorted_Sorted. unfold sort_ids, sort_by.
  assert (Hrun : let '(n, desc) := count_run (fun a b => (a - b)%Z) l in
                 StronglySorted Z.le (if desc then rev (take n l) else take n l)).
  { destruct l as [|x0 [|x1 l']]; [simpl; constructor | simpl; repeat constructor |].
    cbn [count_run]. cbv beta. destruct (x1 - x0 <? 0)%Z eqn:E; cbn [Nat.add take].
    - apply ss_rev_ge. apply Z.ltb_lt in E. pose proof (run_from_desc x1 l') as H.
      constructor; [exact H|]. inversion H as [|? ? _ Hall]; subst. constructor; [lia|].
      rewrite List.Forall_forall in *. intros y Hy. specialize (Hall y Hy). lia.
    - apply Z.ltb_ge in E. pose proof (run_from_asc x1 l') as H.
      constructor; [exact H|]. inversion H as [|? ? _ Hall]; subst. constructor; [lia|].
      rewrite List.Forall_forall in *. intros y Hy. specialize (Hall y Hy). lia. }
  destruct (count_run _ l) as [n desc]. revert Hrun.
  generalize (if desc then rev (take n l) else take n l) as a.
  induction (drop n l) as [|x xs IH]; intros a Ha; simpl; [exact Ha|].
  apply IH, binary_insert_sorted, Ha.
Qed.

Lemma sort_ids_perm (l : list Z) : Permutation (sort_ids l) l.
Proof. apply sort_by_perm. Qed.


(** ** Running a detail request on an array of ids *)

Lemma mapM_cache_get (key : string) (zs : list Z) (w : world) :
  mapM (fun id => cache_get (key +:+ "#" +:+ to_str id)) (map JNum zs) w =
  (map (fun z => default JUndef (cache w !! (key +:+ "#" +:+ Z_to_string z))) zs,
   {| cache := cache w;
      recency := lru_gets (cache w) (recency w) (map (fun z => key +:+ "#" +:+ Z_to_string z) zs);
      trace := trace w ++ map (fun z => EvCacheGet (key +:+ "#" +:+ Z_to_string z)) zs |}).
Proof.
  revert w. induction zs as [|z zs IH]; intros w; simpl.
  - unfold ret. destruct w; simpl. by rewrite app_nil_r.
  - rewrite bind_run. unfold cache_get at 1. simpl. rewrite bind_run, IH. simpl.
    unfold ret. simpl. by rewrite <- app_assoc.
Qed.

Lemma split_cached_run (cv : Z -> jsval) (zs : list Z) (lk : list (pkey * jsval)) :
  split_cached (map JNum zs) (map cv zs) lk =
  (map JNum (List.filter (fun z => is_undef (cv z)) zs),
   fold_left (upd (fun z => to_pkey (JNum z)) cv)
     (List.filter (fun z => negb (is_undef (cv z))) zs) lk).
Proof.
  revert lk. induction zs as [|z zs IH]; intros lk; [reflexivity|].
  cbn [map split_cached tail List.filter].
  destruct (cv z) eqn:E; cbn [is_undef negb]; rewrite IH; [reflexivity|..];
    cbn [fold_left]; f_equal; f_equal; unfold upd; by rewrite E.
Qed.

Lemma to_str_ids (zs : list Z) : to_str (JArr (map JNum zs)) = join "," (map Z_to_string zs).
Proof. cbn [to_str]. by rewrite map_map. Qed.

Lemma details_array_run cfg transport json_parse path (l : list Z) params apiKey (w : world) :
  _apiDetailsRequest cfg transport json_parse path (IdArray l) params apiKey w =
  let cv := cached_val cfg w path params apiKey in
  let zs := sort_ids l in
  let w1 := {| cache := cache w;
               recency := lru_gets (cache w) (recency w) (map (detail_key cfg path params apiKey) zs);
               trace := trace w ++ map (fun z => EvCacheGet (detail_key cfg path params apiKey z)) zs |} in
  let miss := List.filter (fun z => is_undef (cv z)) zs in
  let lk := fold_left (upd (fun z => to_pkey (JNum z)) cv)
              (List.filter (fun z => negb (is_undef (cv z))) zs) [] in
  if Nat.eqb (length miss) 0 then (Fulfilled (JArr (map cv zs)), w1)
  else
    let qs := [("ids", JStr (join "," (map Z_to_string miss)))] in
    let auth := auth_header (eff_key params apiKey) in
    details_response cfg (request_key cfg path params apiKey) lk
      (settle_response json_parse (transport (_buildURL path) qs auth))
      (emit (EvTransport (_buildURL path) qs auth) w1).
Proof.
  unfold _apiDetailsRequest, cached_val, detail_key, request_key, eff_params, eff_key.
  destruct (shift_args params apiKey) as [fs k]. cbn [fst snd].
  unfold _findInCache. rewrite bind_run, bind_run, mapM_cache_get.
  cbn [fst snd ret loop_elems]. rewrite split_cached_run.
  cbn [length_le_zero]. rewrite length_map. cbv zeta.
  destruct (Nat.eqb (length _) 0); [reflexivity|].
  rewrite bind_run, request_run. cbn [_idListToParams fst snd]. rewrite to_str_ids.
  reflexivity.
Qed.


(** ** The handlers of the detail request *)

Lemma details_response_array cfg key lk (r : settled request_result) (w w' : world) out :
  details_response cfg key lk r w = (Fulfilled (JArr out), w') ->
  (exists e, r = Rejected e /\ lk <> [] /\ out = lookup_values lk) \/
  (exists rr objs, r = Fulfilled rr /\ data rr = JArr objs /\
     out = lookup_values (add_fetched lk (sort_by cmp_by_id objs))).
Proof.
  unfold details_response. destruct r as [rr|e].
  - rewrite bind_run. unfold _setCacheObjects.
    destruct (data rr) as [| | | | |objs|fs|e] eqn:Ed; cbn [get_prop];
      try (unfold _setCacheObject, cache_set, ret; cbn; intros H; discriminate H).
    destruct (existsb is_nullish objs); [unfold ret; cbn; intros H; discriminate H|].
    rewrite bind_run. unfold ret; cbn [fst snd]. intros H. injection H as <- _.
    right. exists rr, objs. tauto.
  - unfold ret. destruct lk as [|x lk]; intros H; [discriminate H|].
    injection H as <- _. left. exists e. split; [reflexivity|]. split; [discriminate|reflexivity].
Qed.


(** ** Cache writes only *)







(** ** Lookup objects built from in-range ids *)

Lemma to_pkey_range (z : Z) : id_in_range z -> to_pkey (JNum z) = PIndex (Z.to_N z).
Proof.
  unfold id_in_range. intros [H1 H2]. unfold to_pkey.
  apply Z.leb_le in H1. apply Z.ltb_lt in H2. by rewrite H1, H2.
Qed.

Lemma Forall2_S {A} (P : Z -> A -> Prop) (S : list (N * A)) :
  (forall n v, In (n, v) S -> P (Z.of_N n) v) ->
  Forall2 P (map (fun e => Z.of_N e.1) S) (map snd S).
Proof.
  induction S as [|[n v] S IH]; intros H; simpl; constructor.
  - apply H. by left.
  - apply IH. intros m u Hm. apply H. by right.
Qed.

Lemma Forall2_in_l {A B} (P : A -> B -> Prop) (xs : list A) (ys : list B) (x : A) :
  Forall2 P xs ys -> In x xs -> exists y, P x y.
Proof.
  induction 1 as [|a b xs ys Hab _ IH]; simpl; [intros []|].
  intros [<-|Hx]; [by exists b | by apply IH].
Qed.

(** The values of a lookup object whose keys are distinct in-range ids,
    each entry satisfying [P] at its id: ascending by id. *)
Lemma lookup_values_ids (lk : list (pkey * jsval)) (P : Z -> jsval -> Prop) :
  NoDup (map fst lk) ->
  (forall k v, In (k, v) lk -> exists z, k = PIndex (Z.to_N z) /\ id_in_range z /\ P z v) ->
  exists ks, Sorted Z.lt ks /\ Forall2 P ks (lookup_values lk) /\
    (forall z, id_in_range z -> In (PIndex (Z.to_N z)) (map fst lk) -> In z ks).
Proof.
  intros Hnd Hlk.
  assert (Hall : Forall (fun e => is_name e = false) lk).
  { apply List.Forall_forall. intros [k v] Hin. destruct (Hlk k v Hin) as (z & -> & _). reflexivity. }
  destruct (lookup_values_sorted lk Hnd Hall) as (S & Hv & Hs & Hin).
  exists (map (fun e => Z.of_N e.1) S). split; [by apply sorted_lt_Z|]. split.
  - rewrite Hv. apply Forall2_S. intros n v H. apply Hin in H.
    destruct (Hlk _ _ H) as (z & E & Hr & HP). injection E as ->.
    unfold id_in_range in Hr. rewrite Z2N.id by lia. exact HP.
  - intros z Hr Hk. apply in_map_iff in Hk. destruct Hk as ([k v] & E & Hk). simpl in E. subst k.
    apply in_map_iff. exists (Z.to_N z, v). split; [simpl; unfold id_in_range in Hr; lia|].
    by apply Hin.
Qed.

Lemma split_lookup (cv : Z -> jsval) (zs : list Z) :
  Forall id_in_range zs ->
  let lk := fold_left (upd (fun z => to_pkey (JNum z)) cv)
              (List.filter (fun z => negb (is_undef (cv z))) zs) [] in
  NoDup (map fst lk) /\
  (forall k v, In (k, v) lk ->
     exists z, k = PIndex (Z.to_N z) /\ id_in_range z /\ In z zs /\ cv z = v /\ v <> JUndef) /\
  (forall z, In z zs -> cv z <> JUndef -> In (PIndex (Z.to_N z)) (map fst lk)).
Proof.
  intros Hr lk. split; [|split].
  - apply upd_nodup. constructor.
  - intros k v H. destruct (upd_sound _ _ _ _ _ H) as [[]|(z & Hz & E)].
    apply List.filter_In in Hz as [Hz Hd].
    assert (Hzr : id_in_range z) by (rewrite List.Forall_forall in Hr; by apply Hr).
    rewrite (to_pkey_range z Hzr) in E. injection E as -> ->.
    exists z. split; [reflexivity|]. split; [exact Hzr|]. split; [exact Hz|]. split; [reflexivity|].
    intros E. rewrite E in Hd. discriminate Hd.
  - intros z Hz Hd. apply upd_keys. right. exists z. split.
    + apply List.filter_In. split; [exact Hz|]. by destruct (cv z).
    + rewrite to_pkey_range; [reflexivity|]. rewrite List.Forall_forall in Hr. by apply Hr.
Qed.

Lemma add_fetched_upd (lk : list (pkey * jsval)) (objs : list jsval) :
  add_fetched lk objs = fold_left (upd (fun o => to_pkey (prop_id o)) (fun o => o)) objs lk.
Proof. reflexivity. Qed.

Lemma fetched_lookup (lk : list (pkey * jsval)) (objs : list jsval) :
  NoDup (map fst lk) ->
  Forall (fun o => exists z, prop_id o = JNum z /\ id_in_range z) objs ->
  let lk' := add_fetched lk (sort_by cmp_by_id objs) in
  NoDup (map fst lk') /\
  (forall k v, In (k, v) lk' -> In (k, v) lk \/
     (In v objs /\ exists z, prop_id v = JNum z /\ id_in_range z /\ k = PIndex (Z.to_N z))) /\
  (forall k, In k (map fst lk) -> In k (map fst lk')) /\
  (forall o z, In o objs -> prop_id o = JNum z -> In (PIndex (Z.to_N z)) (map fst lk')).
Proof.
  intros Hnd Hobjs lk'. unfold lk'. rewrite add_fetched_upd.
  rewrite List.Forall_forall in Hobjs.
  split; [|split; [|split]].
  - by apply upd_nodup.
  - intros k v H. destruct (upd_sound _ _ _ _ _ H) as [H1|(o & Ho & E)]; [by left|].
    injection E as -> ->. right.
    apply (Permutation_in _ (sort_by_perm cmp_by_id objs)) in Ho.
    split; [exact Ho|]. destruct (Hobjs o Ho) as (z & Hz & Hr). exists z.
    split; [exact Hz|]. split; [exact Hr|]. by rewrite Hz, to_pkey_range.
  - intros k Hk. apply upd_keys. by left.
  - intros o z Ho Hz. apply upd_keys. right. exists o. split.
    + apply (Permutation_in _ (Permutation_sym (sort_by_perm cmp_by_id objs))). exact Ho.
    + destruct (Hobjs o Ho) as (z' & Hz' & Hr). rewrite Hz in Hz'. injection Hz' as <-.
      by rewrite Hz, to_pkey_range.
Qed.


(** ** The array path of the detail request *)

Lemma Forall2_impl' {A B} (P Q : A -> B -> Prop) (xs : list A) (ys : list B) :
  (forall x y, P x y -> Q x y) -> Forall2 P xs ys -> Forall2 Q xs ys.
Proof. intros H. induction 1; constructor; auto. Qed.

Lemma Forall2_map_r {A B} (P : A -> B -> Prop) (f : A -> B) (xs : list A) :
  Forall (fun x => P x (f x)) xs -> Forall2 P xs (map f xs).
Proof. induction 1; simpl; constructor; auto. Qed.

Lemma sorted_lt_le (ks : list Z) : Sorted Z.lt ks -> Sorted Z.le ks.
Proof.
  induction 1 as [|a l Hs IH Hhd]; constructor; [exact IH|].
  destruct Hhd; constructor. lia.
Qed.

Lemma in_sort_ids (l : list Z) (z : Z) : In z (sort_ids l) <-> In z l.
Proof.
  split; apply Permutation_in; [apply sort_ids_perm | apply Permutation_sym, sort_ids_perm].
Qed.

Lemma range_sort_ids (l : list Z) : Forall id_in_range l -> Forall id_in_range (sort_ids l).
Proof.
  rewrite !List.Forall_forall. intros H z Hz. apply H. by apply in_sort_ids.
Qed.

(** When some requested id is missing from the cache, a fulfilled array
    result is the lookup object's values after the upstream call: on a
    failure the cached objects, on an array answer the cached objects
    merged with the fetched ones; in both cases ascending by id, one per
    id. *)
Lemma details_miss_out cfg transport json_parse path (l : list Z) params apiKey (w : world) out :
  Forall id_in_range l ->
  let cv := cached_val cfg w path params apiKey in
  let miss := List.filter (fun z => is_undef (cv z)) (sort_ids l) in
  let r := settle_response json_parse
             (transport (_buildURL path) [("ids", JStr (join "," (map Z_to_string miss)))]
                (auth_header (eff_key params apiKey))) in
  Nat.eqb (length miss) 0 = false ->
  fst (_apiDetailsRequest cfg transport json_parse path (IdArray l) params apiKey w)
    = Fulfilled (JArr out) ->
  (exists e, r = Rejected e /\
     exists ks, Sorted Z.lt ks /\
       Forall2 (fun z v => In z l /\ cv z = v /\ v <> JUndef) ks out /\
       (forall z, In z l -> cv z <> JUndef -> In z ks)) \/
  (exists rr objs, r = Fulfilled rr /\ data rr = JArr objs /\
     (Forall (fun o => exists z, prop_id o = JNum z /\ id_in_range z) objs ->
      exists ks, Sorted Z.lt ks /\
        Forall2 (fun z v => (In z l /\ cv z = v /\ v <> JUndef) \/
                            (In v objs /\ prop_id v = JNum z)) ks out /\
        (forall z, In z l -> cv z <> JUndef -> In z ks) /\
        (forall o z, In o objs -> prop_id o = JNum z -> In z ks))).
Proof.
  intros Hr cv miss r Hm Hres.
  rewrite details_array_run in Hres. cbv zeta in Hres. fold cv miss r in Hres.
  rewrite Hm in Hres.
  destruct (split_lookup cv (sort_ids l) (range_sort_ids l Hr)) as (Hnd & Hsound & Hkeys).
  set (lk := fold_left _ _ []) in Hres, Hnd, Hsound, Hkeys.
  destruct (details_response cfg _ lk r _) as [res w'] eqn:Er. simpl in Hres. subst res.
  destruct (details_response_array _ _ _ _ _ _ _ Er) as [(e & Hre & Hne & Hout)|(rr & objs & Hrr & Hd & Hout)].
  - left. exists e. split; [exact Hre|].
    destruct (lookup_values_ids lk (fun z v => In z l /\ cv z = v /\ v <> JUndef) Hnd) as (ks & Hs & HF & Hc).
    { intros k v H. destruct (Hsound k v H) as (z & Ek & Hzr & Hz & Hv & Hu).
      exists z. split; [exact Ek|]. split; [exact Hzr|]. split; [by apply in_sort_ids|]. tauto. }
    exists ks. rewrite Hout. split; [exact Hs|]. split; [exact HF|].
    intros z Hz Hd. apply Hc; [rewrite List.Forall_forall in Hr; by apply Hr|].
    apply Hkeys; [by apply in_sort_ids | exact Hd].
  - right. exists rr, objs. split; [exact Hrr|]. split; [exact Hd|]. intros Hobjs.
    destruct (fetched_lookup lk objs Hnd Hobjs) as (Hnd' & Hsound' & Hkeep & Hnew).
    destruct (lookup_values_ids (add_fetched lk (sort_by cmp_by_id objs))
                (fun z v => (In z l /\ cv z = v /\ v <> JUndef) \/ (In v objs /\ prop_id v = JNum z))
                Hnd') as (ks & Hs & HF & Hc).
    { intros k v H. destruct (Hsound' k v H) as [H1|(Hv & z & Hz & Hzr & Ek)].
      - destruct (Hsound k v H1) as (z & Ek & Hzr & Hz & Hcv & Hu).
        exists z. split; [exact Ek|]. split; [exact Hzr|]. left.
        split; [by apply in_sort_ids|]. tauto.
      - exists z. split; [exact Ek|]. split; [exact Hzr|]. right. tauto. }
    exists ks. rewrite Hout. split; [exact Hs|]. split; [exact HF|]. split.
    + intros z Hz Hd'. apply Hc; [rewrite List.Forall_forall in Hr; by apply Hr|].
      apply Hkeep, Hkeys; [by apply in_sort_ids | exact Hd'].
    + intros o z Ho Hz. rewrite List.Forall_forall in Hobjs.
      destruct (Hobjs o Ho) as (z' & Hz' & Hzr). rewrite Hz in Hz'. injection Hz' as <-.
      apply Hc; [exact Hzr|]. by apply (Hnew o z).
Qed.


Lemma filter_len0 {A} (f : A -> bool) (xs : list A) :
  Nat.eqb (length (List.filter f xs)) 0 = true -> forall x, In x xs -> f x = false.
Proof.
  intros H x Hx. destruct (f x) eqn:E; [|reflexivity].
  apply Nat.eqb_eq, length_zero_iff_nil in H.
  assert (In x (List.filter f xs)) by (apply List.filter_In; tauto). rewrite H in *. contradiction.
Qed.

Lemma missing_nonempty (cv : Z -> jsval) (l : list Z) :
  Exists (fun z => cv z = JUndef) l ->
  Nat.eqb (length (List.filter (fun z => is_undef (cv z)) (sort_ids l))) 0 = false.
Proof.
  intros Hex. apply List.Exists_exists in Hex as (z & Hz & Hu).
  destruct (Nat.eqb _ 0) eqn:E; [|reflexivity].
  pose proof (filter_len0 _ _ E z (proj2 (in_sort_ids l z) Hz)) as H. simpl in H.
  rewrite Hu in H. discriminate H.
Qed.



(** C1 (as the code does it): on an array of ids in [0, 2^32 - 1), with an
    upstream whose array answers carry ids in that range, a fulfilled array
    result lists its objects in ascending order of id, whatever the order of
    the request: each element is the cached object of a requested id, or an
    object whose [id] is its position's id, and these ids ascend. *)
Theorem fetchDetails_ascending_order cfg transport json_parse path (l : list Z) params apiKey
    (w : world) (out : list jsval) :
  Forall id_in_range l ->
  upstream_ids_ok json_parse transport ->
  fst (_apiDetailsRequest cfg transport json_parse path (IdArray l) params apiKey w)
    = Fulfilled (JArr out) ->
  exists ks, Sorted Z.le ks /\
    Forall2 (fun z v => (In z l /\ cached_val cfg w path params apiKey z = v /\ v <> JUndef) \/
                        prop_id v = JNum z) ks out.
Proof.
  intros Hr Hup Hres.
  destruct (Nat.eqb (length (List.filter (fun z => is_undef (cached_val cfg w path params apiKey z))
                               (sort_ids l))) 0) eqn:Hm.
  - rewrite details_array_run in Hres. cbv zeta in Hres. rewrite Hm in Hres.
    injection Hres as <-. exists (sort_ids l). split; [apply sort_ids_sorted|].
    apply Forall2_map_r. apply List.Forall_forall. intros z Hz. left.
    split; [by apply in_sort_ids|]. split; [reflexivity|].
    pose proof (filter_len0 _ _ Hm z Hz) as H. cbv beta in H. intros E. rewrite E in H. discriminate H.
  - destruct (details_miss_out cfg transport json_parse path l params apiKey w out Hr Hm Hres)
      as [(e & _ & ks & Hs & HF & _)|(rr & objs & Hrr & Hd & H)].
    + exists ks. split; [by apply sorted_lt_le|]. revert HF. apply Forall2_impl'. tauto.
    + destruct (H (Hup _ _ _ rr objs Hrr Hd)) as (ks & Hs & HF & _).
      exists ks. split; [by apply sorted_lt_le|]. revert HF. apply Forall2_impl'. tauto.
Qed.

(** C2 (as the code does it, when every requested id is cached): the
    result is the cached objects of the ids sorted ascending, one per
    occurrence, duplicates included, read from the cache without a transport
    call. *)
Theorem fetchDetails_duplicates cfg transport json_parse path (l : list Z) params apiKey
    (w : world) :
  Forall (fun z => cached_val cfg w path params apiKey z <> JUndef) l ->
  _apiDetailsRequest cfg transport json_parse path (IdArray l) params apiKey w
  = (Fulfilled (JArr (map (cached_val cfg w path params apiKey) (sort_ids l))),
     {| cache := cache w;
        recency := lru_gets (cache w) (recency w) (map (detail_key cfg path params apiKey) (sort_ids l));
        trace := trace w ++ map (fun z => EvCacheGet (detail_key cfg path params apiKey z))
                                (sort_ids l) |}) /\
  Permutation (sort_ids l) l /\ Sorted Z.le (sort_ids l).
Proof.
  intros Hall. split; [|split; [apply sort_ids_perm | apply sort_ids_sorted]].
  rewrite details_array_run. cbv zeta.
  replace (Nat.eqb (length (List.filter (fun z => is_undef (cached_val cfg w path params apiKey z))
                              (sort_ids l))) 0) with true; [reflexivity|].
  symmetry. apply Nat.eqb_eq, length_zero_iff_nil.
  destruct (List.filter _ _) as [|z zs] eqn:E; [reflexivity|]. exfalso.
  assert (Hz : In z (List.filter (fun z => is_undef (cached_val cfg w path params apiKey z))
                       (sort_ids l))) by (rewrite E; by left).
  apply List.filter_In in Hz as [Hz Hu]. apply (proj1 (in_sort_ids l z)) in Hz.
  rewrite List.Forall_forall in Hall. apply (Hall z Hz).
  by destruct (cached_val cfg w path params apiKey z).
Qed.


(** C3 (as the code does it): for distinct requested ids of which some are
    cached and some missing, when the upstream call fails (any rejection:
    network error, status other than 200/206, malformed body), the call is
    fulfilled with the cached objects, in ascending order of id. *)
Theorem fetchDetails_partial_failure cfg transport json_parse path (l : list Z) params apiKey
    (w : world) :
  NoDup l ->
  Forall id_in_range l ->
  Exists (fun z => cached_val cfg w path params apiKey z <> JUndef) l ->
  Exists (fun z => cached_val cfg w path params apiKey z = JUndef) l ->
  (forall q a, exists e, settle_response json_parse (transport (_buildURL path) q a) = Rejected e) ->
  exists out ks,
    fst (_apiDetailsRequest cfg transport json_parse path (IdArray l) params apiKey w)
      = Fulfilled (JArr out) /\
    Sorted Z.lt ks /\
    Forall2 (fun z v => cached_val cfg w path params apiKey z = v) ks out /\
    (forall z, In z ks <-> In z l /\ cached_val cfg w path params apiKey z <> JUndef).
Proof.
  intros _ Hr Hcached Hmiss Hfail.
  pose proof (missing_nonempty _ l Hmiss) as Hm.
  assert (Hres : exists out,
            fst (_apiDetailsRequest cfg transport json_parse path (IdArray l) params apiKey w)
            = Fulfilled (JArr out)).
  { rewrite details_array_run. cbv zeta. rewrite Hm.
    destruct (Hfail [("ids", JStr (join "," (map Z_to_string
                 (List.filter (fun z => is_undef (cached_val cfg w path params apiKey z))
                    (sort_ids l)))))] (auth_header (eff_key params apiKey))) as [e He].
    rewrite He.
    destruct (split_lookup (cached_val cfg w path params apiKey) (sort_ids l) (range_sort_ids l Hr))
      as (_ & _ & Hkeys).
    apply List.Exists_exists in Hcached as (z & Hz & Hd).
    pose proof (Hkeys z (proj2 (in_sort_ids l z) Hz) Hd) as Hk.
    destruct (fold_left _ _ []) as [|x lk]; [destruct Hk|].
    eexists. reflexivity. }
  destruct Hres as [out Hres]. exists out.
  destruct (details_miss_out cfg transport json_parse path l params apiKey w out Hr Hm Hres)
    as [(e & _ & ks & Hs & HF & Hc)|(rr & objs & Hrr & _)].
  - exists ks. split; [exact Hres|]. split; [exact Hs|]. split.
    + revert HF. apply Forall2_impl'. tauto.
    + intros z. split.
      * intros Hz. destruct (Forall2_in_l _ _ _ z HF Hz) as (v & Hzl & <- & Hv). tauto.
      * intros [Hz Hd]. by apply Hc.
  - destruct (Hfail [("ids", JStr (join "," (map Z_to_string
                 (List.filter (fun z => is_undef (cached_val cfg w path params apiKey z))
                    (sort_ids l)))))] (auth_header (eff_key params apiKey))) as [e He].
    rewrite He in Hrr. discriminate Hrr.
Qed.



Ltac range_tac := repeat constructor; unfold id_in_range, max_index; lia.

Lemma upstream_const_ids_ok (b : string) :
  b = "[item15]" \/ b = "[item2016]" \/ b = "[item15,item2016]" ->
  upstream_ids_ok parse_fixture (upstream_const b).
Proof.
  intros Hb u q a rr objs H Hd.
  destruct Hb as [ -> | [ -> | -> ]]; vm_compute in H; injection H as <-; vm_compute in Hd;
    injection Hd as <-; repeat constructor;
    solve [exists 15%Z; split; [reflexivity | unfold id_in_range, max_index; lia]
          | exists 2016%Z; split; [reflexivity | unfold id_in_range, max_index; lia]].
Qed.

(** C1 (counterexample): ids [2016; 15], none cached: the result lists the
    objects in ascending id order, 15 first, not in the requested order. *)
Lemma fetchDetails_order_cex :
  fst (_apiDetailsRequest cfg_en upstream_items parse_fixture "items" (IdArray [2016; 15]%Z)
         (AVal JUndef) JUndef w_empty) = Fulfilled (JArr [item15; item2016]) /\
  ~ (exists out,
       fst (_apiDetailsRequest cfg_en upstream_items parse_fixture "items" (IdArray [2016; 15]%Z)
              (AVal JUndef) JUndef w_empty) = Fulfilled (JArr out) /\
       map prop_id out = [JNum 2016; JNum 15]).
Proof.
  split; [vm_compute; reflexivity|].
  vm_compute. intros (out & H1 & H2). injection H1 as <-. discriminate H2.
Qed.

(** C2 (counterexample): ids [15; 15].  With id 15 cached the result holds
    the object of id 15 twice; with nothing cached and the upstream answering
    [[item15]] it holds it once, not twice. *)
Lemma fetchDetails_duplicates_cex :
  fst (_apiDetailsRequest cfg_en upstream_items parse_fixture "items" (IdArray [15; 15]%Z)
         (AVal JUndef) JUndef w_15) = Fulfilled (JArr [item15; item15]) /\
  fst (_apiDetailsRequest cfg_en (upstream_const "[item15]") parse_fixture "items"
         (IdArray [15; 15]%Z) (AVal JUndef) JUndef w_empty) = Fulfilled (JArr [item15]) /\
  ~ (exists out,
       fst (_apiDetailsRequest cfg_en (upstream_const "[item15]") parse_fixture "items"
              (IdArray [15; 15]%Z) (AVal JUndef) JUndef w_empty) = Fulfilled (JArr out) /\
       length out = 2%nat).
Proof.
  split; [vm_compute; reflexivity|]. split; [vm_compute; reflexivity|].
  vm_compute. intros (out & H1 & H2). injection H1 as <-. discriminate H2.
Qed.

(** C3 (counterexample): ids [2016; 15; 9] with 15 and 2016 cached and the
    upstream down: the cached objects come back in ascending id order, not
    in their original relative order (2016 before 15). *)
Lemma fetchDetails_partial_order_cex :
  fst (_apiDetailsRequest cfg_en upstream_down parse_fixture "items" (IdArray [2016; 15; 9]%Z)
         (AVal JUndef) JUndef w_15_2016) = Fulfilled (JArr [item15; item2016]) /\
  ~ (exists out,
       fst (_apiDetailsRequest cfg_en upstream_down parse_fixture "items" (IdArray [2016; 15; 9]%Z)
              (AVal JUndef) JUndef w_15_2016) = Fulfilled (JArr out) /\
       map prop_id out = [JNum 2016; JNum 15]).
Proof.
  split; [vm_compute; reflexivity|].
  vm_compute. intros (out & H1 & H2). injection H1 as <-. discriminate H2.
Qed.


Lemma fetchDetails_ascending_order_witness :
  Forall id_in_range [2016; 15]%Z /\
  upstream_ids_ok parse_fixture (upstream_const "[item2016]") /\
  fst (_apiDetailsRequest cfg_en (upstream_const "[item2016]") parse_fixture "items"
         (IdArray [2016; 15]%Z) (AVal JUndef) JUndef w_15) = Fulfilled (JArr [item15; item2016]) /\
  exists ks, Sorted Z.le ks /\
    Forall2 (fun z v => (In z [2016; 15]%Z /\
                         cached_val cfg_en w_15 "items" (AVal JUndef) JUndef z = v /\ v <> JUndef) \/
                        prop_id v = JNum z) ks [item15; item2016].
Proof.
  assert (H1 : Forall id_in_range [2016; 15]%Z) by range_tac.
  assert (H2 : upstream_ids_ok parse_fixture (upstream_const "[item2016]"))
    by (apply upstream_const_ids_ok; right; left; reflexivity).
  assert (H3 : fst (_apiDetailsRequest cfg_en (upstream_const "[item2016]") parse_fixture "items"
                      (IdArray [2016; 15]%Z) (AVal JUndef) JUndef w_15)
               = Fulfilled (JArr [item15; item2016])) by (vm_compute; reflexivity).
  split; [exact H1|]. split; [exact H2|]. split; [exact H3|].
  exact (fetchDetails_ascending_order cfg_en (upstream_const "[item2016]") parse_fixture "items"
           [2016; 15]%Z (AVal JUndef) JUndef w_15 [item15; item2016] H1 H2 H3).
Defined.

Lemma fetchDetails_duplicates_witness :
  Forall (fun z => cached_val cfg_en w_15 "items" (AVal JUndef) JUndef z <> JUndef) [15; 15]%Z /\
  _apiDetailsRequest cfg_en upstream_items parse_fixture "items" (IdArray [15; 15]%Z)
    (AVal JUndef) JUndef w_15
  = (Fulfilled (JArr (map (cached_val cfg_en w_15 "items" (AVal JUndef) JUndef)
                        (sort_ids [15; 15]%Z))),
     {| cache := cache w_15;
        recency := lru_gets (cache w_15) (recency w_15)
                     (map (detail_key cfg_en "items" (AVal JUndef) JUndef) (sort_ids [15; 15]%Z));
        trace := trace w_15 ++ map (fun z => EvCacheGet (detail_key cfg_en "items" (AVal JUndef) JUndef z))
                                   (sort_ids [15; 15]%Z) |}).
Proof.
  assert (A1 : Forall (fun z => cached_val cfg_en w_15 "items" (AVal JUndef) JUndef z <> JUndef)
                 [15; 15]%Z) by (repeat constructor; vm_compute; discriminate).
  split; [exact A1|].
  exact (proj1 (fetchDetails_duplicates cfg_en upstream_items parse_fixture "items"
                  [15; 15]%Z (AVal JUndef) JUndef w_15 A1)).
Defined.

Lemma fetchDetails_partial_failure_witness :
  (NoDup [2016; 15; 9]%Z /\ Forall id_in_range [2016; 15; 9]%Z /\
   Exists (fun z => cached_val cfg_en w_15_2016 "items" (AVal JUndef) JUndef z <> JUndef) [2016; 15; 9]%Z /\
   Exists (fun z => cached_val cfg_en w_15_2016 "items" (AVal JUndef) JUndef z = JUndef) [2016; 15; 9]%Z /\
   (forall q a, exists e, settle_response parse_fixture (upstream_down (_buildURL "items") q a) = Rejected e)) /\
  exists out ks,
    fst (_apiDetailsRequest cfg_en upstream_down parse_fixture "items" (IdArray [2016; 15; 9]%Z)
           (AVal JUndef) JUndef w_15_2016) = Fulfilled (JArr out) /\
    Sorted Z.lt ks /\
    Forall2 (fun z v => cached_val cfg_en w_15_2016 "items" (AVal JUndef) JUndef z = v) ks out /\
    (forall z, In z ks <-> In z [2016; 15; 9]%Z /\
                           cached_val cfg_en w_15_2016 "items" (AVal JUndef) JUndef z <> JUndef).
Proof.
  assert (H0 : NoDup [2016; 15; 9]%Z) by (apply (bool_decide_unpack _); reflexivity).
  assert (H1 : Forall id_in_range [2016; 15; 9]%Z) by range_tac.
  assert (H2 : Exists (fun z => cached_val cfg_en w_15_2016 "items" (AVal JUndef) JUndef z <> JUndef)
                 [2016; 15; 9]%Z) by (constructor; vm_compute; discriminate).
  assert (H3 : Exists (fun z => cached_val cfg_en w_15_2016 "items" (AVal JUndef) JUndef z = JUndef)
                 [2016; 15; 9]%Z) by (right; right; left; vm_compute; reflexivity).
  assert (H4 : forall q a, exists e,
             settle_response parse_fixture (upstream_down (_buildURL "items") q a) = Rejected e)
    by (intros q a; eexists; vm_compute; reflexivity).
  split; [split; [exact H0|split; [exact H1|split; [exact H2|split; [exact H3|exact H4]]]]|].
  exact (fetchDetails_partial_failure cfg_en upstream_down parse_fixture "items" [2016; 15; 9]%Z
           (AVal JUndef) JUndef w_15_2016 H0 H1 H2 H3 H4).
Defined.



(** * Further properties of the request layer *)

(** ** The collection request, run *)

Lemma apiRequest_run cfg transport json_parse path params apiKey (w : world) :
  _apiRequest cfg transport json_parse path params apiKey w =
  let k := request_key cfg path params apiKey in
  let v := default JUndef (cache w !! k) in
  let w0 := snd (cache_get k w) in
  if truthy v then (Fulfilled v, w0) else
  let url := _buildURL path in
  let qs := eff_params cfg params apiKey in
  let auth := auth_header (eff_key params apiKey) in
  let w1 := emit (EvTransport url qs auth) w0 in
  match settle_response json_parse (transport url qs auth) with
  | Fulfilled rr => (Fulfilled (data rr), snd (cache_set cfg k (data rr) w1))
  | Rejected e => (Fulfilled (JErr e), w1)
  end.
Proof.
  unfold _apiRequest, request_key, eff_params, eff_key.
  destruct (shift_args params apiKey) as [fs k]. cbn [fst snd].
  unfold _findInCache. cbn [truthy negb]. rewrite bind_run.
  unfold _findInCacheSimple, cache_get. cbn [fst snd]. cbv zeta.
  destruct (truthy _); [reflexivity|].
  rewrite bind_run, request_run. cbn [fst snd].
  destruct (settle_response _ _) as [rr|e]; unfold bind, _setCacheObject, cache_set, ret, emit; cbn;
    by rewrite <- ?app_assoc.
Qed.

Lemma header_lower (r : response) (name : string) :
  Forall (fun h => lower h.1 = h.1) (headers r) -> lower name <> name -> header r name = JUndef.
Proof.
  intros Hl Hn. unfold header. rewrite (proj2 (list_find_None _ _)); [reflexivity|].
  eapply Forall_impl; [exact Hl|]. intros h Hh Heq. apply Hn. by rewrite <- Heq.
Qed.

(** The pagination fields of [meta] read the headers [X-Page-Size],
    [X-Page-Total], [X-Result-Count] and [X-Result-Total] by their exact
    names.  When the response's header names are all in lower case, as Node
    delivers them, these four fields are [undefined] whatever the server
    sent; only [httpStatus] is set. *)
Theorem request_meta_lowercase_headers json_parse (r : response) (rr : request_result) :
  Forall (fun h => lower h.1 = h.1) (headers r) ->
  settle_response json_parse (Answered r) = Fulfilled rr ->
  meta rr = [("pageSize", JUndef); ("pageTotal", JUndef); ("resultCount", JUndef);
             ("resultTotal", JUndef); ("httpStatus", JNum (statusCode r))].
Proof.
  intros Hl H. unfold settle_response in H.
  destruct (_ && _); [discriminate H|].
  destruct (_jsonParse json_parse (body r)); [|discriminate H].
  injection H as <-. cbn [meta].
  assert (Hh : forall n, lower n <> n -> header r n = JUndef) by exact (fun n => header_lower r n Hl).
  rewrite !Hh; try reflexivity; intros E; vm_compute in E; discriminate E.
Qed.

(** A collection request that misses the cache and succeeds with a truthy
    value stores it under the request's key; the same request made next is
    answered from the cache with that value, with one cache read and no
    transport call. *)
Theorem apiRequest_cached_after_success cfg transport json_parse path params apiKey
    (w : world) (rr : request_result) :
  truthy (default JUndef (cache w !! request_key cfg path params apiKey)) = false ->
  settle_response json_parse (transport (_buildURL path) (eff_params cfg params apiKey)
                                (auth_header (eff_key params apiKey))) = Fulfilled rr ->
  truthy (data rr) = true ->
  fst (_apiRequest cfg transport json_parse path params apiKey w) = Fulfilled (data rr) /\
  let w1 := snd (_apiRequest cfg transport json_parse path params apiKey w) in
  _apiRequest cfg transport json_parse path params apiKey w1
  = (Fulfilled (data rr), snd (cache_get (request_key cfg path params apiKey) w1)).
Proof.
  intros Hmiss Hr Ht. rewrite apiRequest_run. cbv zeta. rewrite Hmiss, Hr.
  split; [reflexivity|]. rewrite apiRequest_run. cbv zeta.
  cbn [snd]. rewrite cache_set_lookup_eq. cbn [default from_option id]. rewrite Ht. reflexivity.
Qed.

(** A collection request that misses the cache and whose upstream call
    fails writes nothing to the cache, so the same request made next calls
    the transport again, with the same outcome. *)
Theorem apiRequest_failure_not_cached cfg transport json_parse path params apiKey
    (w : world) (e : js_error) :
  truthy (default JUndef (cache w !! request_key cfg path params apiKey)) = false ->
  settle_response json_parse (transport (_buildURL path) (eff_params cfg params apiKey)
                                (auth_header (eff_key params apiKey))) = Rejected e ->
  let evs := [EvCacheGet (request_key cfg path params apiKey);
              EvTransport (_buildURL path) (eff_params cfg params apiKey)
                (auth_header (eff_key params apiKey))] in
  let w1 := snd (_apiRequest cfg transport json_parse path params apiKey w) in
  fst (_apiRequest cfg transport json_parse path params apiKey w) = Fulfilled (JErr e) /\
  cache w1 = cache w /\ trace w1 = trace w ++ evs /\
  let w2 := snd (_apiRequest cfg transport json_parse path params apiKey w1) in
  fst (_apiRequest cfg transport json_parse path params apiKey w1) = Fulfilled (JErr e) /\
  cache w2 = cache w /\ trace w2 = trace w ++ evs ++ evs.
Proof.
  intros Hmiss Hr. cbv zeta. rewrite !apiRequest_run. cbv zeta.
  unfold cache_get, emit. cbn [cache trace recency fst snd].
  rewrite Hmiss, Hr. cbn [cache trace recency fst snd]. rewrite ?Hmiss, ?Hr.
  cbn [cache trace recency fst snd].
  split; [reflexivity|]. split; [reflexivity|]. split; [by rewrite <- app_assoc|].
  split; [reflexivity|]. split; [reflexivity|]. by rewrite <- !app_assoc.
Qed.

(** ** The detail request on a single value, run *)

Lemma findInCache_one (k : string) (v : jsval) (w : world) :
  _findInCache k (IOne v) w = cache_get (if truthy v then k +:+ "#" +:+ to_str v else k) w.
Proof. unfold _findInCache, _findInCacheSimple. by destruct (truthy v). Qed.

Lemma cache_get_fst (key : string) (w : world) :
  fst (cache_get key w) = default JUndef (cache w !! key).
Proof. reflexivity. Qed.

Lemma details_value_run cfg transport json_parse path (v : jsval) params apiKey (w : world) :
  let k := request_key cfg path params apiKey in
  let key := if truthy v then k +:+ "#" +:+ to_str v else k in
  let c := default JUndef (cache w !! key) in
  let w0 := snd (cache_get key w) in
  _apiDetailsRequest cfg transport json_parse path (IdValue v) params apiKey w =
  match c with
  | JArr cl =>
      match loop_elems (IOne v) with
      | Rejected e => (Rejected e, w0)
      | Fulfilled es =>
          let '(ni, lk) := split_cached es cl [] in
          match length_le_zero (IArr ni) with
          | Rejected e => (Rejected e, w0)
          | Fulfilled true => (Fulfilled c, w0)
          | Fulfilled false =>
              details_response cfg k lk
                (settle_response json_parse (transport (_buildURL path) (_idListToParams (IArr ni))
                                               (auth_header (eff_key params apiKey))))
                (emit (EvTransport (_buildURL path) (_idListToParams (IArr ni))
                         (auth_header (eff_key params apiKey))) w0)
          end
      end
  | _ =>
      if truthy c then (Fulfilled c, w0) else
      match length_le_zero (IOne v) with
      | Rejected e => (Rejected e, w0)
      | Fulfilled true => (Fulfilled c, w0)
      | Fulfilled false =>
          details_response cfg k []
            (settle_response json_parse (transport (_buildURL path) [("id", v)]
                                           (auth_header (eff_key params apiKey))))
            (emit (EvTransport (_buildURL path) [("id", v)] (auth_header (eff_key params apiKey))) w0)
      end
  end.
Proof.
  unfold _apiDetailsRequest, request_key, eff_params, eff_key.
  destruct (shift_args params apiKey) as [fs k]. cbn [fst snd]. cbv zeta.
  rewrite bind_run, findInCache_one, cache_get_fst.
  destruct (default JUndef _) as [| | | | |cl| |]; cbn [bind ret];
    try (destruct (truthy _); [reflexivity|];
         destruct (length_le_zero (IOne v)) as [[]|]; try reflexivity;
         rewrite bind_run, request_run; reflexivity).
  destruct (loop_elems (IOne v)) as [es|e]; [|reflexivity].
  destruct (split_cached es cl []) as [ni lk].
  destruct (length_le_zero (IArr ni)) as [[]|]; reflexivity.
Qed.

(** The key of a single value: the request key, followed by [#] and the
    string form of the value when the value is truthy. *)
Lemma details_value_miss cfg transport json_parse path (v : jsval) params apiKey (w : world) :
  let k := request_key cfg path params apiKey in
  let key := if truthy v then k +:+ "#" +:+ to_str v else k in
  let auth := auth_header (eff_key params apiKey) in
  truthy (default JUndef (cache w !! key)) = false ->
  length_le_zero (IOne v) = Fulfilled false ->
  _apiDetailsRequest cfg transport json_parse path (IdValue v) params apiKey w =
  details_response cfg k []
    (settle_response json_parse (transport (_buildURL path) [("id", v)] auth))
    {| cache := cache w; recency := lru_get key (cache w) (recency w);
       trace := trace w ++ [EvCacheGet key; EvTransport (_buildURL path) [("id", v)] auth] |}.
Proof.
  intros k key auth Hc Hl. rewrite details_value_run. fold k key.
  destruct (default JUndef (cache w !! key)) eqn:E; try discriminate Hc;
    cbn [truthy] in Hc |- *; try rewrite Hc; rewrite Hl; unfold emit, cache_get; cbn;
    by rewrite <- app_assoc.
Qed.

Lemma details_value_hit cfg transport json_parse path (v : jsval) params apiKey (w : world) :
  let k := request_key cfg path params apiKey in
  let key := if truthy v then k +:+ "#" +:+ to_str v else k in
  let c := default JUndef (cache w !! key) in
  truthy c = true -> is_array c = false ->
  _apiDetailsRequest cfg transport json_parse path (IdValue v) params apiKey w
  = (Fulfilled c, snd (cache_get key w)).
Proof.
  intros k key c Ht Ha. rewrite details_value_run. fold k key c.
  destruct c; try discriminate Ha; cbn [truthy] in Ht |- *; try discriminate Ht; rewrite ?Ht; reflexivity.
Qed.

(** The success handler on an object answer. *)
Lemma details_response_object cfg k (rr : request_result) fs (w : world) :
  data rr = JObj fs ->
  details_response cfg k [] (Fulfilled rr) w
  = (Fulfilled (JObj fs), snd (cache_set cfg (k +:+ "#" +:+ to_str (fget fs "id")) (JObj fs) w)).
Proof. intros Hd. unfold details_response. rewrite Hd. reflexivity. Qed.

Lemma key_ext_ne (k s : string) : k +:+ "#" +:+ s <> k.
Proof.
  intros E. apply (f_equal String.length) in E. rewrite !sapp_length in E. cbn in E. lia.
Qed.

(** The entry under [k] is kept or dropped: never replaced. *)
Definition kept_at (k : string) (c c' : gmap string jsval) : Prop :=
  c' !! k = c !! k \/ c' !! k = None.

Lemma kept_at_refl k c : kept_at k c c.
Proof. by left. Qed.

Lemma kept_at_trans k c1 c2 c3 : kept_at k c1 c2 -> kept_at k c2 c3 -> kept_at k c1 c3.
Proof. unfold kept_at. intros [H1|H1] [H2|H2]; rewrite ?H2, ?H1; auto. Qed.

Lemma cache_set_kept_at cfg key k v (w : world) :
  k <> key -> kept_at k (cache w) (cache (snd (cache_set cfg key v w))).
Proof. intros Hne. by apply lru_set_lookup_ne. Qed.

Lemma setEach_keeps_base cfg k objs (w : world) :
  kept_at k (cache w) (cache (snd (setEach cfg k objs w))).
Proof.
  revert w. induction objs as [|o objs IH]; intros w; [apply kept_at_refl|].
  cbn [setEach]. rewrite bind_run. eapply kept_at_trans; [|apply IH].
  apply cache_set_kept_at. intros E. exact (key_ext_ne _ _ (eq_sym E)).
Qed.

Lemma details_response_keeps_base cfg k lk r (w : world) :
  kept_at k (cache w) (cache (snd (details_response cfg k lk r w))).
Proof.
  unfold details_response. destruct r as [rr|e]; [|apply kept_at_refl].
  rewrite bind_run.
  assert (Hs : kept_at k (cache w) (cache (snd (_setCacheObjects cfg k (data rr) w)))).
  { unfold _setCacheObjects.
    destruct (data rr) as [| | | | |objs|fs|e]; cbn [get_prop];
      try apply kept_at_refl;
      try (rewrite bind_run; apply cache_set_kept_at; intros E; exact (key_ext_ne _ _ (eq_sym E))).
    destruct (existsb is_nullish objs); [apply kept_at_refl|].
    rewrite bind_run. apply setEach_keeps_base. }
  destruct (_setCacheObjects cfg k (data rr) w) as [s w1]. cbn [fst snd] in Hs |- *.
  destruct s as [[]|]; exact Hs.
Qed.

(** A detail request for the id [0], which is falsy, looks the cache up
    under the bare request key instead of [<key>#0].  The detail request
    never writes that bare key (it writes [<key>#<id>] keys only), so when
    nothing truthy is stored there, every request for id [0] calls the
    transport with [id=0], also after an earlier one cached the object. *)
Theorem details_zero_id_never_cached cfg transport json_parse path params apiKey (w : world) :
  truthy (default JUndef (cache w !! request_key cfg path params apiKey)) = false ->
  let call := _apiDetailsRequest cfg transport json_parse path (IdValue (JNum 0)) params apiKey in
  (exists rest, trace (snd (call w)) =
     trace w ++ [EvCacheGet (request_key cfg path params apiKey);
                 EvTransport (_buildURL path) [("id", JNum 0)] (auth_header (eff_key params apiKey))]
     ++ rest) /\
  truthy (default JUndef (cache (snd (call w)) !! request_key cfg path params apiKey)) = false.
Proof.
  intros Hc call. unfold call. rewrite details_value_miss; [|exact Hc|reflexivity].
  split.
  - match goal with |- context [details_response cfg ?k ?lk ?r ?w1] =>
      destruct (appends_details_response cfg k lk r w1) as [rest Hr] end.
    exists rest. rewrite Hr. cbn [trace]. by rewrite <- app_assoc.
  - match goal with |- context [details_response cfg ?k ?lk ?r ?w1] =>
      destruct (details_response_keeps_base cfg k lk r w1) as [E|E] end;
      rewrite E; [exact Hc|reflexivity].
Qed.

(** A detail request for a nonzero integer id that misses the cache, and
    whose upstream answer is an object with that id, caches the object under
    [<key>#<id>] and returns it; the same request made next is answered from
    the cache with that object, with one cache read and no transport
    call. *)
Theorem details_single_id_round_trip cfg transport json_parse path params apiKey (w : world)
    (z : Z) (rr : request_result) fs :
  z <> 0%Z ->
  truthy (cached_val cfg w path params apiKey z) = false ->
  settle_response json_parse (transport (_buildURL path) [("id", JNum z)]
                                (auth_header (eff_key params apiKey))) = Fulfilled rr ->
  data rr = JObj fs -> fget fs "id" = JNum z ->
  let call := _apiDetailsRequest cfg transport json_parse path (IdValue (JNum z)) params apiKey in
  let key := detail_key cfg path params apiKey z in
  fst (call w) = Fulfilled (JObj fs) /\
  cache (snd (call w))
  = (lru_set (maxCacheObjects cfg) key (JObj fs) (cache w) (lru_get key (cache w) (recency w))).1 /\
  call (snd (call w)) = (Fulfilled (JObj fs), snd (cache_get key (snd (call w)))).
Proof.
  intros Hz Hc Hr Hd Hid call key.
  assert (Htz : truthy (JNum z) = true) by (cbn; by apply negb_true_iff, Z.eqb_neq).
  assert (E1 : call w =
     (Fulfilled (JObj fs),
      snd (cache_set cfg key (JObj fs)
        {| cache := cache w; recency := lru_get key (cache w) (recency w);
           trace := trace w ++ [EvCacheGet key;
                                EvTransport (_buildURL path) [("id", JNum z)]
                                  (auth_header (eff_key params apiKey))] |}))).
  { unfold call. rewrite details_value_miss.
    - rewrite Hr, (details_response_object _ _ _ _ _ Hd), Hid, Htz. reflexivity.
    - rewrite Htz. exact Hc.
    - reflexivity. }
  rewrite E1. split; [reflexivity|]. split; [reflexivity|].
  cbn [snd]. unfold call.
  rewrite details_value_hit; rewrite Htz; fold key; rewrite ?cache_set_lookup_eq; reflexivity.
Qed.

(** ** Cache writes of a batch answer *)

Lemma setEach_defined cfg k objs (w : world) (key : string) :
  lru_ok (cache w) (recency w) -> lru_room (maxCacheObjects cfg) (recency w) (length objs) ->
  existsb is_nullish objs = false ->
  is_undef (default JUndef (cache w !! key)) = false \/
  (exists o, In o objs /\ key = k +:+ "#" +:+ to_str (prop_id o)) ->
  is_undef (default JUndef (cache (snd (setEach cfg k objs w)) !! key)) = false.
Proof.
  revert w. induction objs as [|o objs IH]; intros w Hok Hroom Hn Hk.
  - destruct Hk as [Hk|(o & [] & _)]. exact Hk.
  - cbn [existsb] in Hn. apply orb_false_iff in Hn as [Ho Hn].
    cbn [setEach]. rewrite bind_run. unfold _setCacheObject, cache_set. cbn [fst snd].
    destruct (lru_set_no_evict (maxCacheObjects cfg) (k +:+ "#" +:+ to_str (prop_id o)) o
                (cache w) (recency w) (length objs) Hok Hroom) as (Heq & Hok' & Hroom').
    rewrite Heq. cbn [fst snd].
    apply IH; [exact Hok'|exact Hroom'|exact Hn|]. cbn [cache].
    destruct (decide (k +:+ "#" +:+ to_str (prop_id o) = key)) as [<-|Hne].
    + left. rewrite lookup_insert_eq. cbn [default from_option id].
      by destruct o.
    + destruct Hk as [Hk|(o' & [<-|Hin] & ->)].
      * left. by rewrite lookup_insert_ne.
      * contradiction.
      * right. by exists o'.
Qed.

Lemma filter_all_false {A} (f : A -> bool) (xs : list A) :
  (forall x, In x xs -> f x = false) -> List.filter f xs = [].
Proof.
  induction xs as [|x xs IH]; intros H; [reflexivity|]. cbn [List.filter].
  rewrite (H x (or_introl eq_refl)). apply IH. intros y Hy. apply H. by right.
Qed.

(** After a batch request on [l] whose upstream answer is an array of
    objects, none [null] or [undefined], with an object for every id of
    [l] that was not cached, every id of [l] is cached, provided the store
    has room for every object written, so that none of the writes drops an
    entry. *)
Lemma details_array_all_cached cfg transport json_parse path (l : list Z) params apiKey
    (w : world) (rr : request_result) (objs : list jsval) :
  lru_ok (cache w) (recency w) -> lru_room (maxCacheObjects cfg) (recency w) (length objs) ->
  let cv := cached_val cfg w path params apiKey in
  let miss := List.filter (fun z => is_undef (cv z)) (sort_ids l) in
  settle_response json_parse
    (transport (_buildURL path) [("ids", JStr (join "," (map Z_to_string miss)))]
       (auth_header (eff_key params apiKey))) = Fulfilled rr ->
  data rr = JArr objs ->
  existsb is_nullish objs = false ->
  (forall z, In z miss -> exists o, In o objs /\ prop_id o = JNum z) ->
  let w1 := snd (_apiDetailsRequest cfg transport json_parse path (IdArray l) params apiKey w) in
  forall z, In z l -> is_undef (cached_val cfg w1 path params apiKey z) = false.
Proof.
  intros Hok Hroom cv miss Hs Hd Hn Hcov w1 z Hz.
  assert (Hzs : In z (sort_ids l)) by (by apply in_sort_ids).
  unfold w1. rewrite details_array_run. cbv zeta. fold cv miss.
  destruct (Nat.eqb (length miss) 0) eqn:Em.
  - cbn [snd]. exact (filter_len0 _ _ Em z Hzs).
  - rewrite Hs. unfold details_response, _setCacheObjects. rewrite Hd, Hn, bind_run, bind_run.
    cbn [fst snd ret]. unfold cached_val.
    destruct (lru_gets_ok (cache w) (recency w)
                (map (detail_key cfg path params apiKey) (sort_ids l)) Hok) as [Hok1 Hl1].
    apply setEach_defined; unfold emit; cbn [cache recency]; [exact Hok1| | |].
    { rewrite (Permutation_length (sort_by_perm cmp_by_id objs)).
      exact (lru_room_le _ _ _ _ Hl1 Hroom). }
    + destruct (existsb is_nullish (sort_by cmp_by_id objs)) eqn:E; [|reflexivity].
      apply existsb_exists in E as (o & Ho & Hno).
      apply (Permutation_in _ (sort_by_perm cmp_by_id objs)) in Ho.
      rewrite <- Hn. symmetry. apply existsb_exists. by exists o.
    + destruct (is_undef (cv z)) eqn:Eu.
      * right. destruct (Hcov z) as (o & Ho & Hid).
        { apply List.filter_In. tauto. }
        exists o. split; [exact (Permutation_in _ (Permutation_sym (sort_by_perm cmp_by_id objs)) Ho)|].
        rewrite Hid. reflexivity.
      * left. exact Eu.
Qed.

(** A batch request repeated after one whose upstream answer covered every
    uncached id (with objects, none [null] or [undefined]) makes no
    transport call: it reads each id's cache entry once, in ascending id
    order, and returns the cached values in that order.  This needs the
    store to have had room for all the objects written (every stored key
    tracked in the order of use, and at most [maxCacheObjects] keys in all):
    an entry dropped by the LRU bound would be fetched again. *)
Theorem details_array_round_trip cfg transport json_parse path (l : list Z) params apiKey
    (w : world) (rr : request_result) (objs : list jsval) :
  lru_ok (cache w) (recency w) -> lru_room (maxCacheObjects cfg) (recency w) (length objs) ->
  let cv := cached_val cfg w path params apiKey in
  let miss := List.filter (fun z => is_undef (cv z)) (sort_ids l) in
  settle_response json_parse
    (transport (_buildURL path) [("ids", JStr (join "," (map Z_to_string miss)))]
       (auth_header (eff_key params apiKey))) = Fulfilled rr ->
  data rr = JArr objs ->
  existsb is_nullish objs = false ->
  (forall z, In z miss -> exists o, In o objs /\ prop_id o = JNum z) ->
  let call := _apiDetailsRequest cfg transport json_parse path (IdArray l) params apiKey in
  let w1 := snd (call w) in
  call w1 =
  (Fulfilled (JArr (map (cached_val cfg w1 path params apiKey) (sort_ids l))),
   {| cache := cache w1;
      recency := lru_gets (cache w1) (recency w1)
                   (map (detail_key cfg path params apiKey) (sort_ids l));
      trace := trace w1 ++ map (fun z => EvCacheGet (detail_key cfg path params apiKey z)) (sort_ids l) |}).
Proof.
  intros Hok Hroom cv miss Hs Hd Hn Hcov call w1.
  pose proof (details_array_all_cached cfg transport json_parse path l params apiKey w rr objs
                Hok Hroom Hs Hd Hn Hcov) as Hall.
  fold call w1 in Hall.
  unfold call at 1. rewrite details_array_run. cbv zeta.
  rewrite filter_all_false; [reflexivity|].
  intros z Hz. apply Hall. by apply in_sort_ids.
Qed.

Lemma items_key_shared cfg :
  request_key cfg "items" (AObj [("page", JUndef); ("page_size", JUndef)]) JUndef
  = request_key cfg "items" (AVal JUndef) JUndef.
Proof. reflexivity. Qed.

(** [listItems()] and [getItems(v)] for a falsy [v] other than [undefined]
    and [null] ([0], [""], [false]) use the same cache key: [JSON.stringify]
    drops the [undefined] [page] and [page_size] members, and a falsy id
    reads the bare request key.  After [listItems()] has fetched and cached
    a truthy answer (the list of item ids), [getItems(v)] returns that same
    answer from the cache, with one cache read and no transport call. *)
Theorem listItems_getItems_shared_cache cfg transport json_parse (w : world)
    (rr : request_result) (v : jsval) :
  let k := request_key cfg "items" (AVal JUndef) JUndef in
  truthy (default JUndef (cache w !! k)) = false ->
  settle_response json_parse
    (transport (_buildURL "items") (eff_params cfg (AObj [("page", JUndef); ("page_size", JUndef)]) JUndef)
       (auth_header JUndef)) = Fulfilled rr ->
  truthy (data rr) = true ->
  truthy v = false -> is_nullish v = false ->
  fst (listItems cfg transport json_parse JUndef JUndef w) = Fulfilled (data rr) /\
  let w1 := snd (listItems cfg transport json_parse JUndef JUndef w) in
  getItems cfg transport json_parse (IdValue v) w1 = (Fulfilled (data rr), snd (cache_get k w1)).
Proof.
  intros k Hm Hs Ht Hv Hn. unfold listItems. rewrite apiRequest_run. cbv zeta.
  rewrite items_key_shared. fold k. rewrite Hm.
  change (eff_key (AObj [("page", JUndef); ("page_size", JUndef)]) JUndef) with JUndef. rewrite Hs.
  split; [reflexivity|].
  unfold getItems. rewrite details_value_run. cbv zeta. rewrite Hv. fold k.
  cbn [snd]. rewrite cache_set_lookup_eq. cbn [default from_option id].
  destruct (data rr) as [| | | | |cl| |]; cbn [truthy] in Ht |- *; try discriminate Ht;
    rewrite ?Ht; try reflexivity.
  destruct v as [| |[]|z|s| | |]; try discriminate Hn; try discriminate Hv; cbn [truthy] in Hv.
  - reflexivity.
  - apply negb_false_iff, Z.eqb_eq in Hv. subst z. reflexivity.
  - apply negb_false_iff, String.eqb_eq in Hv. subst s. reflexivity.
Qed.

(** A batch request that misses some id and whose upstream answer is
    [null], or an array holding [null], rejects with a
    [TypeError] (reading [id] of that value throws), also when other ids of
    the request were found in the cache; nothing is written to the cache. *)
Theorem details_array_null_answer_rejects cfg transport json_parse path (l : list Z) params apiKey
    (w : world) (rr : request_result) :
  let cv := cached_val cfg w path params apiKey in
  let miss := List.filter (fun z => is_undef (cv z)) (sort_ids l) in
  Nat.eqb (length miss) 0 = false ->
  settle_response json_parse
    (transport (_buildURL path) [("ids", JStr (join "," (map Z_to_string miss)))]
       (auth_header (eff_key params apiKey))) = Fulfilled rr ->
  data rr = JNull \/ (exists objs, data rr = JArr objs /\ In JNull objs) ->
  let call := _apiDetailsRequest cfg transport json_parse path (IdArray l) params apiKey in
  (exists msg, fst (call w) = Rejected (TypeError msg)) /\
  cache (snd (call w)) = cache w.
Proof.
  intros cv miss Hm Hs Hd call. unfold call. rewrite details_array_run. cbv zeta. fold cv miss.
  rewrite Hm, Hs. unfold details_response, _setCacheObjects.
  destruct Hd as [Hd|(objs & Hd & Hn)]; rewrite Hd;
    [|replace (existsb is_nullish objs) with true by (symmetry; apply existsb_exists; by exists JNull)];
    rewrite bind_run;
    cbn; split; eauto.
Qed.

Lemma key_ext_inj (k s t : string) : k +:+ "#" +:+ s = k +:+ "#" +:+ t -> s = t.
Proof. intros E. apply sapp_inv_head in E. by injection E. Qed.

(** A single-value detail request caches the answer object under
    [<key>#<answer.id>], but looks it up under [<key>#<requested value>].
    When the two strings differ (an object without [id], cached under
    [<key>#undefined], or an id written differently, such as ["015"] for
    [15]), the answer is cached and returned, yet the same request made
    next misses the cache and calls the transport again. *)
Theorem details_single_id_mismatch_refetch cfg transport json_parse path params apiKey
    (w : world) (v : jsval) (rr : request_result) fs :
  let k := request_key cfg path params apiKey in
  let url := _buildURL path in
  let auth := auth_header (eff_key params apiKey) in
  truthy v = true ->
  length_le_zero (IOne v) = Fulfilled false ->
  truthy (default JUndef (cache w !! (k +:+ "#" +:+ to_str v))) = false ->
  settle_response json_parse (transport url [("id", v)] auth) = Fulfilled rr ->
  data rr = JObj fs ->
  to_str (fget fs "id") <> to_str v ->
  let call := _apiDetailsRequest cfg transport json_parse path (IdValue v) params apiKey in
  let key := k +:+ "#" +:+ to_str v in
  let key' := k +:+ "#" +:+ to_str (fget fs "id") in
  fst (call w) = Fulfilled (JObj fs) /\
  cache (snd (call w))
  = (lru_set (maxCacheObjects cfg) key' (JObj fs) (cache w) (lru_get key (cache w) (recency w))).1 /\
  exists rest, trace (snd (call (snd (call w)))) =
    trace (snd (call w)) ++ [EvCacheGet key; EvTransport url [("id", v)] auth] ++ rest.
Proof.
  intros k url auth Ht Hl Hc Hs Hd Hne call key key'.
  assert (E1 : call w =
     (Fulfilled (JObj fs),
      snd (cache_set cfg key' (JObj fs)
        {| cache := cache w; recency := lru_get key (cache w) (recency w);
           trace := trace w ++ [EvCacheGet key; EvTransport url [("id", v)] auth] |}))).
  { unfold call. rewrite details_value_miss; cbv zeta; rewrite ?Ht; try assumption.
    fold k url auth. rewrite Hs, (details_response_object _ _ _ _ _ Hd). reflexivity. }
  rewrite E1. split; [reflexivity|]. split; [reflexivity|]. cbn [snd].
  unfold call. rewrite details_value_miss; cbv zeta; rewrite ?Ht; [|cbn [cache]|exact Hl].
  - fold k url auth.
    match goal with |- context [details_response cfg ?k' ?lk ?r ?w1] =>
      destruct (appends_details_response cfg k' lk r w1) as [rest Hr] end.
    exists rest. rewrite Hr. unfold cache_set. cbn [trace]. by rewrite <- app_assoc.
  - assert (Hne' : key <> key') by (intros E; apply key_ext_inj in E; exact (Hne (eq_sym E))).
    destruct (cache_set_kept_at cfg key' key (JObj fs)
                {| cache := cache w; recency := lru_get key (cache w) (recency w);
                   trace := trace w ++ [EvCacheGet key; EvTransport url [("id", v)] auth] |} Hne')
      as [E|E]; change (request_key cfg path params apiKey +:+ "#" +:+ to_str v) with key;
      rewrite E; [exact Hc|reflexivity].
Qed.

(** ** Instances of the properties above *)

Lemma request_meta_lowercase_headers_witness :
  exists rr, settle_response parse_item (Answered paged_response) = Fulfilled rr /\
  meta rr = [("pageSize", JUndef); ("pageTotal", JUndef); ("resultCount", JUndef);
             ("resultTotal", JUndef); ("httpStatus", JNum 200)].
Proof.
  eexists. split; [vm_compute; reflexivity|].
  apply (request_meta_lowercase_headers parse_item paged_response).
  - repeat constructor.
  - vm_compute. reflexivity.
Defined.

Lemma apiRequest_cached_after_success_witness :
  exists rr,
  settle_response parse_fixture (upstream_const "[item15]" (_buildURL "items")
     (eff_params cfg_en (AVal JUndef) JUndef) (auth_header (eff_key (AVal JUndef) JUndef))) = Fulfilled rr /\
  fst (_apiRequest cfg_en (upstream_const "[item15]") parse_fixture "items" (AVal JUndef) JUndef w_empty)
    = Fulfilled (data rr) /\
  let w1 := snd (_apiRequest cfg_en (upstream_const "[item15]") parse_fixture "items" (AVal JUndef) JUndef w_empty) in
  _apiRequest cfg_en (upstream_const "[item15]") parse_fixture "items" (AVal JUndef) JUndef w1
  = (Fulfilled (data rr), snd (cache_get (request_key cfg_en "items" (AVal JUndef) JUndef) w1)).
Proof.
  eexists. split; [vm_compute; reflexivity|].
  apply (apiRequest_cached_after_success cfg_en (upstream_const "[item15]") parse_fixture "items"
           (AVal JUndef) JUndef w_empty); vm_compute; reflexivity.
Defined.

Lemma apiRequest_failure_not_cached_witness :
  let evs := [EvCacheGet (request_key cfg_en "items" (AVal JUndef) JUndef);
              EvTransport (_buildURL "items") (eff_params cfg_en (AVal JUndef) JUndef)
                (auth_header (eff_key (AVal JUndef) JUndef))] in
  let e := HttpStatusError 503 "Service Unavailable" in
  let call := _apiRequest cfg_en upstream_down parse_fixture "items" (AVal JUndef) JUndef in
  let w1 := snd (call w_empty) in
  fst (call w_empty) = Fulfilled (JErr e) /\
  cache w1 = cache w_empty /\ trace w1 = trace w_empty ++ evs /\
  let w2 := snd (call w1) in
  fst (call w1) = Fulfilled (JErr e) /\
  cache w2 = cache w_empty /\ trace w2 = trace w_empty ++ evs ++ evs.
Proof.
  apply (apiRequest_failure_not_cached cfg_en upstream_down parse_fixture "items" (AVal JUndef) JUndef
           w_empty); vm_compute; reflexivity.
Defined.

Lemma details_zero_id_never_cached_witness :
  let call := _apiDetailsRequest cfg_en (upstream_const "item15") parse_item "items"
                (IdValue (JNum 0)) (AVal JUndef) JUndef in
  (exists rest, trace (snd (call w_empty)) =
     trace w_empty ++ [EvCacheGet (request_key cfg_en "items" (AVal JUndef) JUndef);
                       EvTransport (_buildURL "items") [("id", JNum 0)]
                         (auth_header (eff_key (AVal JUndef) JUndef))] ++ rest) /\
  truthy (default JUndef (cache (snd (call w_empty)) !! request_key cfg_en "items" (AVal JUndef) JUndef))
  = false.
Proof.
  apply (details_zero_id_never_cached cfg_en (upstream_const "item15") parse_item "items"
           (AVal JUndef) JUndef w_empty).
  vm_compute. reflexivity.
Defined.

Lemma details_single_id_round_trip_witness :
  let call := _apiDetailsRequest cfg_en (upstream_const "item15") parse_item "items"
                (IdValue (JNum 15)) (AVal JUndef) JUndef in
  let key := detail_key cfg_en "items" (AVal JUndef) JUndef 15 in
  fst (call w_empty) = Fulfilled item15 /\
  cache (snd (call w_empty))
  = (lru_set (maxCacheObjects cfg_en) key item15 (cache w_empty)
       (lru_get key (cache w_empty) (recency w_empty))).1 /\
  call (snd (call w_empty)) = (Fulfilled item15, snd (cache_get key (snd (call w_empty)))).
Proof.
  apply (details_single_id_round_trip cfg_en (upstream_const "item15") parse_item "items"
           (AVal JUndef) JUndef w_empty 15
           {| meta := [("pageSize", JUndef); ("pageTotal", JUndef); ("resultCount", JUndef);
                       ("resultTotal", JUndef); ("httpStatus", JNum 200)]; data := item15 |});
    vm_compute; try reflexivity; discriminate.
Defined.

Lemma listItems_getItems_shared_cache_witness :
  let k := request_key cfg_en "items" (AVal JUndef) JUndef in
  fst (listItems cfg_en (upstream_const "[15,2016]") parse_item JUndef JUndef w_empty)
    = Fulfilled (JArr [JNum 15; JNum 2016]) /\
  let w1 := snd (listItems cfg_en (upstream_const "[15,2016]") parse_item JUndef JUndef w_empty) in
  getItems cfg_en (upstream_const "[15,2016]") parse_item (IdValue (JNum 0)) w1
  = (Fulfilled (JArr [JNum 15; JNum 2016]), snd (cache_get k w1)).
Proof.
  apply (listItems_getItems_shared_cache cfg_en (upstream_const "[15,2016]") parse_item w_empty
           {| meta := [("pageSize", JUndef); ("pageTotal", JUndef); ("resultCount", JUndef);
                       ("resultTotal", JUndef); ("httpStatus", JNum 200)];
              data := JArr [JNum 15; JNum 2016] |} (JNum 0));
    vm_compute; reflexivity.
Defined.

Lemma details_array_round_trip_witness :
  lru_ok (cache w_empty) (recency w_empty) /\
  lru_room (maxCacheObjects cfg_en) (recency w_empty) (length [item15; item2016]) /\
  let call := _apiDetailsRequest cfg_en upstream_items parse_fixture "items" (IdArray [2016; 15]%Z)
                (AVal JUndef) JUndef in
  let w1 := snd (call w_empty) in
  call w1 =
  (Fulfilled (JArr (map (cached_val cfg_en w1 "items" (AVal JUndef) JUndef) (sort_ids [2016; 15]%Z))),
   {| cache := cache w1;
      recency := lru_gets (cache w1) (recency w1)
                   (map (detail_key cfg_en "items" (AVal JUndef) JUndef) (sort_ids [2016; 15]%Z));
      trace := trace w1 ++ map (fun z => EvCacheGet (detail_key cfg_en "items" (AVal JUndef) JUndef z))
                               (sort_ids [2016; 15]%Z) |}).
Proof.
  assert (Hok : lru_ok (cache w_empty) (recency w_empty)).
  { intros k x H. discriminate H. }
  assert (Hroom : lru_room (maxCacheObjects cfg_en) (recency w_empty) (length [item15; item2016])).
  { vm_compute. lia. }
  split; [exact Hok|]. split; [exact Hroom|].
  apply (details_array_round_trip cfg_en upstream_items parse_fixture "items" [2016; 15]%Z
           (AVal JUndef) JUndef w_empty
           {| meta := [("pageSize", JUndef); ("pageTotal", JUndef); ("resultCount", JUndef);
                       ("resultTotal", JUndef); ("httpStatus", JNum 200)];
              data := JArr [item15; item2016] |} [item15; item2016] Hok Hroom).
  - vm_compute. reflexivity.
  - reflexivity.
  - reflexivity.
  - vm_compute. intros z [<-|[<-|[]]].
    + exists item15. split; [left; reflexivity|reflexivity].
    + exists item2016. split; [right; left; reflexivity|reflexivity].
Defined.

Lemma details_array_null_answer_rejects_witness :
  let call := _apiDetailsRequest cfg_en upstream_null parse_fixture "items" (IdArray [15; 2016]%Z)
                (AVal JUndef) JUndef in
  (exists msg, fst (call w_15) = Rejected (TypeError msg)) /\
  cache (snd (call w_15)) = cache w_15.
Proof.
  apply (details_array_null_answer_rejects cfg_en upstream_null parse_fixture "items" [15; 2016]%Z
           (AVal JUndef) JUndef w_15
           {| meta := [("pageSize", JUndef); ("pageTotal", JUndef); ("resultCount", JUndef);
                       ("resultTotal", JUndef); ("httpStatus", JNum 200)]; data := JNull |}).
  - vm_compute. reflexivity.
  - vm_compute. reflexivity.
  - left. reflexivity.
Defined.

Lemma details_single_id_mismatch_refetch_witness :
  let k := request_key cfg_en "items" (AVal JUndef) JUndef in
  let call := _apiDetailsRequest cfg_en (upstream_const "item15") parse_item "items"
                (IdValue (JStr "015")) (AVal JUndef) JUndef in
  fst (call w_empty) = Fulfilled item15 /\
  cache (snd (call w_empty))
  = (lru_set (maxCacheObjects cfg_en) (k +:+ "#" +:+ "15") item15 (cache w_empty)
       (lru_get (k +:+ "#" +:+ "015") (cache w_empty) (recency w_empty))).1 /\
  exists rest, trace (snd (call (snd (call w_empty)))) =
    trace (snd (call w_empty)) ++
      [EvCacheGet (k +:+ "#" +:+ "015");
       EvTransport (_buildURL "items") [("id", JStr "015")] (auth_header (eff_key (AVal JUndef) JUndef))] ++ rest.
Proof.
  apply (details_single_id_mismatch_refetch cfg_en (upstream_const "item15") parse_item "items"
           (AVal JUndef) JUndef w_empty (JStr "015")
           {| meta := [("pageSize", JUndef); ("pageTotal", JUndef); ("resultCount", JUndef);
                       ("resultTotal", JUndef); ("httpStatus", JNum 200)]; data := item15 |}
           [("id", JNum 15); ("name", JStr "Abomination Hammer")]);
    vm_compute; try reflexivity; discriminate.
Defined.

(** A detail request whose ids argument is [undefined] or [null] (as in
    [getItems()]) never calls the transport.  It reads the bare request
    key: a truthy non-array value found there is returned; otherwise
    reading [ids.length] throws, and the request rejects with a
    [TypeError]. *)
Theorem details_nullish_ids_no_request cfg transport json_parse path params apiKey
    (w : world) (v : jsval) :
  is_nullish v = true ->
  let k := request_key cfg path params apiKey in
  let c := default JUndef (cache w !! k) in
  _apiDetailsRequest cfg transport json_parse path (IdValue v) params apiKey w =
  (if truthy c && negb (is_array c) then Fulfilled c
   else Rejected (TypeError ("Cannot read properties of " +:+ to_str v +:+ " (reading 'length')")),
   snd (cache_get k w)).
Proof.
  intros Hn k c. rewrite details_value_run. cbv zeta.
  replace (truthy v) with false by (destruct v; try discriminate Hn; reflexivity). fold k c.
  destruct c as [| | | | |cl| |]; cbn [truthy is_array negb andb];
    try (destruct v; try discriminate Hn; reflexivity).
  - destruct b; [reflexivity|]. destruct v; try discriminate Hn; reflexivity.
  - destruct (negb (z =? 0)%Z); [reflexivity|]. destruct v; try discriminate Hn; reflexivity.
  - destruct (negb (String.eqb s "")); [reflexivity|]. destruct v; try discriminate Hn; reflexivity.
Qed.

Lemma details_nullish_ids_no_request_witness :
  is_nullish JUndef = true /\
  fst (_apiDetailsRequest cfg_en upstream_items parse_fixture "items" (IdValue JUndef) (AVal JUndef) JUndef w_empty)
  = Rejected (TypeError "Cannot read properties of undefined (reading 'length')").
Proof.
  split; [reflexivity|].
  pose proof (details_nullish_ids_no_request cfg_en upstream_items parse_fixture "items" (AVal JUndef) JUndef
                w_empty JUndef eq_refl) as H.
  cbv zeta in H. rewrite H. reflexivity.
Defined.

(** ** Decimal strings *)

Lemma parse_digits_app (s t : string) (a : N) :
  parse_digits (s +:+ t) a = match parse_digits s a with Some b => parse_digits t b | None => None end.
Proof.
  revert a. induction s as [|x s IH]; intros a; [reflexivity|]. rewrite sapp_cons. cbn [parse_digits].
  destruct (_ && _); [apply IH|reflexivity].
Qed.

Lemma dec_fuel_acc (f : nat) (n : N) (acc : string) : dec_fuel f n acc = dec_fuel f n "" +:+ acc.
Proof.
  revert n acc. induction f as [|f IH]; intros n acc; [reflexivity|]. cbn [dec_fuel].
  destruct (n <? 10)%N; [reflexivity|].
  rewrite (IH _ (String _ acc)), (IH _ (String _ EmptyString)), sapp_assoc. reflexivity.
Qed.

Lemma parse_digit_char (d a : N) : (d < 10)%N ->
  parse_digits (String (digit_char d) EmptyString) a = Some (a * 10 + d)%N.
Proof.
  intros Hd. unfold digit_char. cbn [parse_digits].
  rewrite N_ascii_embedding by lia.
  replace ((48 <=? 48 + d)%N && (48 + d <=? 57)%N) with true
    by (symmetry; apply andb_true_iff; split; apply N.leb_le; lia).
  f_equal. lia.
Qed.

Lemma dec_fuel_S (f : nat) (n : N) (acc : string) :
  dec_fuel (S f) n acc =
  if (n <? 10)%N then String (digit_char (n mod 10)) acc
  else dec_fuel f (n / 10)%N (String (digit_char (n mod 10)) acc).
Proof. reflexivity. Qed.

Lemma dec_fuel_parse (f : nat) (n a : N) :
  (n < 10 ^ N.of_nat f)%N -> exists p, parse_digits (dec_fuel (S f) n "") a = Some (a * p + n)%N.
Proof.
  revert n a. induction f as [|f IH]; intros n a Hn; rewrite dec_fuel_S.
  - replace (n <? 10)%N with true by (symmetry; apply N.ltb_lt; cbn in Hn; lia).
    exists 10%N. rewrite parse_digit_char by (apply N.mod_lt; lia).
    cbn in Hn. rewrite N.mod_small by lia. f_equal; lia.
  - destruct (n <? 10)%N eqn:Hl.
    + apply N.ltb_lt in Hl. exists 10%N. rewrite parse_digit_char by (apply N.mod_lt; lia).
      rewrite N.mod_small by lia. f_equal; lia.
    + rewrite dec_fuel_acc, parse_digits_app.
      destruct (IH (n / 10)%N a) as [p Hp].
      { rewrite Nat2N.inj_succ, N.pow_succ_r' in Hn. apply N.Div0.div_lt_upper_bound. lia. }
      rewrite Hp, parse_digit_char by (apply N.mod_lt; lia).
      exists (p * 10)%N. f_equal.
      pose proof (N.div_mod n 10 ltac:(lia)). lia.
Qed.

Lemma size_nat_pow10 (n : N) : (n < 10 ^ N.of_nat (N.size_nat n))%N.
Proof.
  destruct n as [|p]; [cbn; lia|]. cbn [N.size_nat].
  induction p as [p IH|p IH|]; cbn [Pos.size_nat]; rewrite ?Nat2N.inj_succ, ?N.pow_succ_r'; lia.
Qed.

Lemma N_to_string_parse (n : N) : parse_digits (N_to_string n) 0 = Some n.
Proof.
  unfold N_to_string. destruct (dec_fuel_parse (N.size_nat n) n 0 (size_nat_pow10 n)) as [p Hp].
  rewrite Hp. f_equal; lia.
Qed.

Lemma Z_to_string_inj (z1 z2 : Z) : Z_to_string z1 = Z_to_string z2 -> z1 = z2.
Proof.
  assert (Hm : forall s n, "-" +:+ s <> N_to_string n).
  { intros s n E. pose proof (N_to_string_parse n) as P. rewrite <- E in P. discriminate P. }
  unfold Z_to_string. destruct (z1 <? 0)%Z eqn:E1, (z2 <? 0)%Z eqn:E2; intros E.
  - apply sapp_inv_head, (f_equal (fun s => parse_digits s 0)) in E.
    rewrite !N_to_string_parse in E. injection E. lia.
  - by apply Hm in E.
  - symmetry in E. by apply Hm in E.
  - apply (f_equal (fun s => parse_digits s 0)) in E.
    rewrite !N_to_string_parse in E. injection E. lia.
Qed.

(** * Properties of the earlier revision *)

Import Legacy.

Lemma lbind_run {A B} (m : M A) (f : A -> M B) (w : world) :
  bind m f w = f (fst (m w)) (snd (m w)).
Proof. unfold bind. by destruct (m w). Qed.

Lemma lmapM_get (k : string) (xs : list jsval) (w : world) :
  mapM (fun x => cache_get (k +:+ "#" +:+ to_str x)) xs w =
  (map (fun x => default JUndef (cache w !! (k +:+ "#" +:+ to_str x))) xs,
   {| cache := cache w; recency := lru_gets (cache w) (recency w) (map (fun x => k +:+ "#" +:+ to_str x) xs);
      trace := trace w ++ map (fun x => EvCacheGet (k +:+ "#" +:+ to_str x)) xs |}).
Proof.
  revert w. induction xs as [|x xs IH]; intros w; cbn [mapM map].
  - unfold ret. destruct w. cbn. by rewrite app_nil_r.
  - rewrite lbind_run. unfold cache_get at 1. cbn [fst snd]. rewrite lbind_run, IH.
    unfold ret, emit. cbn. by rewrite <- app_assoc.
Qed.

(** [ids.length > 0] is false for a falsy value other than [undefined] and
    [null], and for a number. *)
Lemma length_gt_zero_one (v : jsval) :
  negb (truthy v) || isInt v = true -> length_gt_zero (IOne v) <> Ok true.
Proof.
  intros H. destruct v as [| |b|z|s|l|fs|e]; cbn; try discriminate; cbn in H; try discriminate H.
  destruct s; cbn in *; discriminate.
Qed.

Lemma details_fetch_one cfg transport json_parse path (v : jsval) ps c (w : world) :
  length_gt_zero (IOne v) <> Ok true ->
  snd (details_fetch cfg transport json_parse path (IOne v) ps c w) = w.
Proof.
  intros H. unfold details_fetch. destruct (length_gt_zero (IOne v)) as [[]|]; try reflexivity.
  contradiction.
Qed.

(** On a single value, everything the detail request does to the world is
    its cache lookup. *)
Lemma details_one_effects cfg transport json_parse path (v : jsval) (w : world) :
  snd (_apiDetailsRequest cfg transport json_parse path (IdValue v) w)
  = snd (_findInCache cfg path (IOne v) w).
Proof.
  unfold _apiDetailsRequest. rewrite lbind_run.
  remember (_findInCache cfg path (IOne v) w) as r eqn:Er. destruct r as [c w1]. cbn [fst snd].
  assert (Hc : (negb (truthy v) || isInt v = true) \/ (exists e, c = Err e) \/ (exists vs, c = Ok (JArr vs))).
  { unfold _findInCache in Er. destruct (truthy v) eqn:Tv; [|left; reflexivity].
    destruct (isInt v) eqn:Iv; [left; by rewrite orb_true_r|]. cbn [negb] in Er.
    right. destruct (loop_elems (IOne v)).
    - right. rewrite lbind_run in Er. unfold ret in Er. injection Er as -> _. eauto.
    - left. unfold ret in Er. injection Er as -> _. eauto. }
  destruct Hc as [H|[[e ->]|[vs ->]]]; try reflexivity.
  destruct c as [c|e]; [|reflexivity].
  apply length_gt_zero_one in H.
  destruct c; try reflexivity; destruct (truthy _); try reflexivity;
    apply details_fetch_one, H.
Qed.

(** The detail request of this revision never calls the transport for a
    single (non-array) ids value, and never writes the cache: it only reads
    it.  A number is looked up alone; a falsy value reads the bare path key;
    any other value is read as an array-like and then fails on
    [ids.filter], a [TypeError]. *)
Theorem legacy_single_value_no_request cfg transport json_parse path (v : jsval) (w : world) :
  exists evs,
    cache (snd (_apiDetailsRequest cfg transport json_parse path (IdValue v) w)) = cache w /\
    trace (snd (_apiDetailsRequest cfg transport json_parse path (IdValue v) w)) = trace w ++ evs /\
    Forall (fun e => is_get e = true) evs.
Proof.
  rewrite details_one_effects. unfold _findInCache.
  destruct (truthy v) eqn:Tv; cbn [negb].
  - destruct (isInt v) eqn:Iv.
    + rewrite lbind_run. unfold cache_get, ret, emit. cbn [fst snd].
      eexists. split; [reflexivity|split; [reflexivity|repeat constructor]].
    + destruct (loop_elems (IOne v)) as [es|e].
      * rewrite lbind_run, lmapM_get. unfold ret. cbn [fst snd cache trace].
        eexists. split; [reflexivity|split; [reflexivity|]].
        clear. induction es; constructor; [reflexivity|assumption].
      * exists nil. split; [reflexivity|split; [cbn; by rewrite app_nil_r|constructor]].
  - rewrite lbind_run. unfold _findInCacheSimple, cache_get, ret, emit. cbn [fst snd].
    eexists. split; [reflexivity|split; [reflexivity|repeat constructor]].
Qed.

(** In this revision a single nonzero integer id is only looked up in the
    cache, under [<lang>#<path>#<id>]: when the entry is not an array, the
    request returns it as it is ([undefined] on a miss) after one cache
    read, without calling the transport. *)
Theorem legacy_single_id_cache_only cfg transport json_parse path (z : Z) (w : world) :
  z <> 0%Z ->
  let key := lang_key cfg path +:+ "#" +:+ Z_to_string z in
  let c := default JUndef (cache w !! key) in
  is_array c = false ->
  _apiDetailsRequest cfg transport json_parse path (IdValue (JNum z)) w = (Ok c, snd (cache_get key w)).
Proof.
  intros Hz key c Ha.
  assert (Tz : truthy (JNum z) = true) by (cbn; by apply negb_true_iff, Z.eqb_neq).
  unfold _apiDetailsRequest, _findInCache. rewrite lbind_run. rewrite Tz. cbn [negb isInt].
  rewrite lbind_run. unfold cache_get at 1 2, ret at 1 2. cbn [fst snd to_str]. fold key c.
  destruct c as [| |b|z0|s|cl|fs|e]; try discriminate Ha; cbn [truthy];
    try destruct b; try destruct (negb (z0 =? 0)%Z); try destruct (negb (String.eqb s ""));
    reflexivity.
Qed.

(** The collection request of this revision accepts the status 200 only:
    on a cache miss, an answer with any other status (206 included) rejects
    the request with that status and body, and nothing is written to the
    cache. *)
Theorem legacy_collection_non_200_rejects cfg transport json_parse path (page pageSize : jsval)
    (w : world) (resp : response) :
  let params := [("page", page); ("page_size", pageSize)] in
  let key := lang_key cfg (path +:+ "#params:" +:+ params_text params) in
  let qs := fset params "lang" (JStr (lang cfg)) in
  truthy (default JUndef (cache w !! key)) = false ->
  transport (_buildURL path) qs = Answered resp ->
  statusCode resp <> 200%Z ->
  _apiRequest cfg transport json_parse path page pageSize w =
  (Err (LHttpError (statusCode resp) (body resp)),
   {| cache := cache w; recency := lru_get key (cache w) (recency w);
      trace := trace w ++ [EvCacheGet key; EvTransport (_buildURL path) qs] |}).
Proof.
  intros params key qs Hm Ht Hs.
  unfold _apiRequest, _findInCache, _findInCacheSimple, _request, cache_get, http_get, ret, bind.
  cbv beta iota zeta. cbn [truthy negb fst snd]. fold params key qs. rewrite Hm. cbv beta iota.
  rewrite Ht. unfold settle.
  replace (statusCode resp =? 200)%Z with false by (symmetry; by apply Z.eqb_neq).
  unfold emit. cbn. by rewrite <- app_assoc.
Qed.

Lemma lcache_set_no_evict cfg (k : string) (v : jsval) (w : world) (m : nat) :
  lru_ok (cache w) (recency w) -> lru_room (maxCacheObjects cfg) (recency w) (S m) ->
  snd (cache_set cfg k v w)
  = {| cache := <[k := v]> (cache w); recency := lru_use k (recency w);
       trace := trace w ++ [EvCacheSet k v (cacheTimeout cfg)] |} /\
  lru_ok (<[k := v]> (cache w)) (lru_use k (recency w)) /\
  lru_room (maxCacheObjects cfg) (lru_use k (recency w)) m.
Proof.
  intros Hok Hroom.
  destruct (lru_set_no_evict (maxCacheObjects cfg) k v (cache w) (recency w) m Hok Hroom)
    as (Heq & Hok' & Hroom').
  split; [|split; assumption]. unfold cache_set. rewrite Heq. reflexivity.
Qed.

(** Writes into a store with room for all of them drop nothing. *)
Lemma lsets_other cfg (K : jsval -> string) (sorted xs : list jsval) (s : nat) (k : string) (w : world) :
  lru_ok (cache w) (recency w) -> lru_room (maxCacheObjects cfg) (recency w) (length xs) ->
  k ∉ map K xs ->
  cache (snd (mapM (fun '(i, x) => cache_set cfg (K x) (nth i sorted JUndef))
                   (zip (seq s (length xs)) xs) w)) !! k = cache w !! k.
Proof.
  revert s w. induction xs as [|x xs IH]; intros s w Hok Hroom Hk; [reflexivity|].
  cbn [length seq zip mapM]. rewrite lbind_run, lbind_run.
  destruct (lcache_set_no_evict cfg (K x) (nth s sorted JUndef) w (length xs) Hok Hroom)
    as (Heq & Hok' & Hroom'). rewrite Heq.
  unfold ret. cbn [snd]. cbn [map] in Hk. apply not_elem_of_cons in Hk as [Hne Hk].
  rewrite IH; cbn [cache recency]; [|exact Hok'|exact Hroom'|exact Hk].
  apply lookup_insert_ne. congruence.
Qed.

Lemma lsets_lookup cfg (K : jsval -> string) (sorted xs : list jsval) (s i : nat) (x : jsval) (w : world) :
  lru_ok (cache w) (recency w) -> lru_room (maxCacheObjects cfg) (recency w) (length xs) ->
  NoDup (map K xs) -> nth_error xs i = Some x ->
  cache (snd (mapM (fun '(i, x) => cache_set cfg (K x) (nth i sorted JUndef))
                   (zip (seq s (length xs)) xs) w)) !! K x = Some (nth (s + i) sorted JUndef).
Proof.
  revert s i w. induction xs as [|y xs IH]; intros s i w Hok Hroom Hd Hi; [by destruct i|].
  cbn [length seq zip mapM]. rewrite lbind_run, lbind_run.
  destruct (lcache_set_no_evict cfg (K y) (nth s sorted JUndef) w (length xs) Hok Hroom)
    as (Heq & Hok' & Hroom'). rewrite Heq.
  unfold ret. cbn [snd]. cbn [map] in Hd. apply NoDup_cons in Hd as [Hy Hd].
  destruct i as [|i]; cbn [nth_error] in Hi.
  - injection Hi as <-. rewrite lsets_other; cbn [cache recency]; [|exact Hok'|exact Hroom'|exact Hy].
    rewrite lookup_insert_eq. by rewrite Nat.add_0_r.
  - rewrite (IH (S s) i); cbn [cache recency]; try assumption.
    f_equal. f_equal. lia.
Qed.

Lemma merge_fill_defined (cl rs : list jsval) :
  Forall (fun c => is_undef c = false) cl -> merge_fill cl rs = cl.
Proof.
  revert rs. induction cl as [|c cl IH]; intros rs H; [reflexivity|].
  apply Forall_cons in H as [Hc H]. destruct c; try discriminate Hc; cbn [merge_fill]; f_equal; auto.
Qed.

Lemma missing_pos_ids (zs : list Z) (g : Z -> jsval) (i : nat) :
  fst (missing_pos (map JNum zs) (map g zs) i) = map JNum (List.filter (fun z => is_undef (g z)) zs).
Proof.
  revert i. induction zs as [|z zs IH]; intros i; [reflexivity|].
  cbn [map missing_pos head tail List.filter].
  specialize (IH (S i)). destruct (missing_pos (map JNum zs) (map g zs) (S i)) as [ms ps].
  cbn [fst] in IH |- *. destruct (g z); cbn [is_undef map fst]; congruence.
Qed.

Lemma missing_pos_fill (ids cl pre rs : list jsval) :
  length ids = length cl ->
  fill_positions (pre ++ cl) (snd (missing_pos ids cl (length pre))) rs = pre ++ merge_fill cl rs.
Proof.
  revert cl pre rs. induction ids as [|x ids IH]; intros cl pre rs Hl.
  - destruct cl; [|discriminate Hl]. cbn. reflexivity.
  - destruct cl as [|c cl]; [discriminate Hl|]. injection Hl as Hl.
    cbn [missing_pos head tail].
    pose proof (IH cl (pre ++ [c]) rs Hl) as Hc.
    pose proof (IH cl (pre ++ [default JUndef (head rs)]) (tail rs) Hl) as Hu.
    rewrite !length_app in Hc, Hu. cbn [length] in Hc, Hu. rewrite Nat.add_1_r in Hc, Hu.
    destruct (missing_pos ids cl (S (length pre))) as [ms ps]. cbn [snd] in Hc, Hu.
    rewrite <- !app_assoc in Hc, Hu. cbn [app] in Hc, Hu.
    destruct c; cbn [snd fill_positions merge_fill]; try exact Hc.
    replace (length pre) with (length pre + 0)%nat by lia. rewrite insert_app_r. cbn.
    exact Hu.
Qed.

Lemma sort_objects_defined (objs : list jsval) :
  existsb is_nullish objs = false -> sort_objects (JArr objs) = Ok (sort_by cmp_by_id objs).
Proof.
  intros H. unfold sort_objects.
  assert (Hf : List.filter (fun o => negb (is_undef o)) objs = objs).
  { clear -H. induction objs as [|o objs IH]; [reflexivity|]. cbn in H. apply orb_false_iff in H as [Ho H].
    cbn. destruct o; try discriminate Ho; cbn; f_equal; auto. }
  assert (Hu : List.filter is_undef objs = []).
  { clear -H. induction objs as [|o objs IH]; [reflexivity|]. cbn in H. apply orb_false_iff in H as [Ho H].
    cbn. destruct o; try discriminate Ho; cbn; auto. }
  assert (Hn : existsb (fun o => match o with JNull => true | _ => false end) objs = false).
  { clear -H. induction objs as [|o objs IH]; [reflexivity|]. cbn in H. apply orb_false_iff in H as [Ho H].
    cbn. destruct o; try discriminate Ho; cbn; auto. }
  rewrite Hf, Hu, Hn, andb_false_r, app_nil_r. reflexivity.
Qed.

Lemma NoDup_map_injective {A B} (f : A -> B) (l : list A) :
  (forall x y, f x = f y -> x = y) -> NoDup l -> NoDup (map f l).
Proof.
  intros Hi Hl. induction Hl as [|x l Hx Hl IH]; cbn [map]; constructor; [|exact IH].
  rewrite list_elem_of_In, in_map_iff. intros (y & Ey & Hy). apply Hx.
  apply list_elem_of_In. by rewrite <- (Hi _ _ Ey).
Qed.

Lemma NoDup_list_filter {A} (f : A -> bool) (l : list A) : NoDup l -> NoDup (List.filter f l).
Proof.
  intros Hl. induction Hl as [|x l Hx Hl IH]; cbn [List.filter]; [constructor|].
  destruct (f x); [|exact IH]. constructor; [|exact IH].
  rewrite list_elem_of_In, filter_In. intros [Hin _]. apply Hx. by apply list_elem_of_In.
Qed.

Lemma ldetails_array_run cfg transport json_parse path (l : list Z) (w : world) :
  _apiDetailsRequest cfg transport json_parse path (IdArray l) w =
  let ids := map JNum (sort_ids l) in
  let cl := map (fun x => default JUndef (cache w !! (lang_key cfg path +:+ "#" +:+ to_str x))) ids in
  let '(ms, ps) := missing_pos ids cl 0 in
  details_fetch cfg transport json_parse path (IArr ms) ps (JArr cl)
    {| cache := cache w;
       recency := lru_gets (cache w) (recency w) (map (fun x => lang_key cfg path +:+ "#" +:+ to_str x) ids);
       trace := trace w ++ map (fun x => EvCacheGet (lang_key cfg path +:+ "#" +:+ to_str x)) ids |}.
Proof.
  unfold _apiDetailsRequest, _findInCache. rewrite lbind_run, lbind_run, lmapM_get.
  unfold ret at 1. cbn [fst snd]. cbv zeta.
  destruct (missing_pos _ _ 0). reflexivity.
Qed.

Lemma ldetails_fetch_run cfg transport json_parse path (ms : list jsval) (ps : list nat)
    (cl objs : list jsval) (w : world) :
  ms <> [] ->
  settle json_parse (transport (_buildURL path)
    [("ids", JStr (to_str (JArr ms))); ("lang", JStr (lang cfg))]) = Ok (JArr objs) ->
  existsb is_nullish objs = false ->
  exists w', cache w' = cache w /\ recency w' = recency w /\
    details_fetch cfg transport json_parse path (IArr ms) ps (JArr cl) w =
    (Ok (JArr (fill_positions cl ps (sort_by cmp_by_id objs))),
     snd (mapM (fun '(i, x) => cache_set cfg (lang_key cfg path +:+ "#" +:+ to_str x)
                                 (nth i (sort_by cmp_by_id objs) JUndef))
               (zip (seq 0 (length ms)) ms) w')).
Proof.
  intros Hms Hs Hn. unfold details_fetch, length_gt_zero.
  replace (0 <? length ms)%nat with true by (symmetry; apply Nat.ltb_lt; destruct ms; [congruence|cbn; lia]).
  unfold console_log, _idListToParams, _request, http_get, _setCacheObjects.
  replace (fset [("ids", JStr (to_str (JArr ms)))] "lang" (JStr (lang cfg)))
    with [("ids", JStr (to_str (JArr ms))); ("lang", JStr (lang cfg))] by reflexivity.
  rewrite !lbind_run. unfold ret. cbn [fst snd]. rewrite Hs.
  rewrite sort_objects_defined by exact Hn. rewrite !lbind_run. cbn [fst snd].
  eexists. split; [|split; [|reflexivity]]; reflexivity.
Qed.

Lemma id_number_not_nullish (objs : list jsval) :
  Forall (fun o => id_number o <> None) objs -> existsb is_nullish objs = false.
Proof.
  induction 1 as [|o objs Ho _ IH]; [reflexivity|]. cbn [existsb]. rewrite IH, orb_false_r.
  destruct o; try reflexivity; contradiction.
Qed.

(** In this revision a batch request on distinct ids fills the places of
    the ids it missed, in ascending id order, with the upstream objects
    sorted by id, by position: the [i]-th missed id gets the [i]-th sorted
    object, which need not be the object with that id; each such id is
    cached under its key with that same object.  Stated for objects with
    numeric ids and a store with room for the entries written. *)
Theorem legacy_batch_positional cfg transport json_parse path (l : list Z) (objs : list jsval) (w : world) :
  NoDup l ->
  lru_ok (cache w) (recency w) ->
  let zs := sort_ids l in
  let key := fun z => lang_key cfg path +:+ "#" +:+ Z_to_string z in
  let cl := map (fun z => default JUndef (cache w !! key z)) zs in
  let miss := List.filter (fun z => is_undef (default JUndef (cache w !! key z))) zs in
  let sorted := sort_by cmp_by_id objs in
  lru_room (maxCacheObjects cfg) (recency w) (length miss) ->
  (miss <> [] ->
   settle json_parse (transport (_buildURL path)
     [("ids", JStr (join "," (map Z_to_string miss))); ("lang", JStr (lang cfg))]) = Ok (JArr objs)) ->
  Forall (fun o => id_number o <> None) objs ->
  let r := _apiDetailsRequest cfg transport json_parse path (IdArray l) w in
  fst r = Ok (JArr (merge_fill cl sorted)) /\
  (forall i z, nth_error miss i = Some z -> cache (snd r) !! key z = Some (nth i sorted JUndef)).
Proof.
  intros Hd Hok zs key cl miss sorted Hroom Hs Hnum r. subst r.
  pose proof (id_number_not_nullish objs Hnum) as Hn.
  rewrite ldetails_array_run. cbv zeta.
  replace (map (fun x => default JUndef (cache w !! (lang_key cfg path +:+ "#" +:+ to_str x)))
             (map JNum (sort_ids l))) with cl by (unfold cl; rewrite map_map; reflexivity).
  change (sort_ids l) with zs.
  assert (Hm : fst (missing_pos (map JNum zs) cl 0) = map JNum miss)
    by exact (missing_pos_ids zs (fun z => default JUndef (cache w !! key z)) 0).
  assert (Hf : fill_positions cl (snd (missing_pos (map JNum zs) cl 0)) sorted = merge_fill cl sorted)
    by exact (missing_pos_fill (map JNum zs) cl [] sorted ltac:(unfold cl; by rewrite !length_map)).
  assert (Hnil : miss = [] -> Forall (fun c => is_undef c = false) cl).
  { intros E. unfold cl. apply Forall_map, Forall_forall. intros z Hz.
    destruct (is_undef _) eqn:Eu; [|reflexivity]. exfalso.
    apply list_elem_of_In in Hz.
    assert (Hin : In z miss) by (apply filter_In; split; assumption).
    rewrite E in Hin. destruct Hin. }
  assert (Hnd : NoDup (map (fun x => lang_key cfg path +:+ "#" +:+ to_str x) (map JNum miss))).
  { rewrite map_map. apply NoDup_map_injective.
    - intros z1 z2 E. apply key_ext_inj in E. by apply Z_to_string_inj.
    - apply NoDup_list_filter. unfold zs. by rewrite (sort_ids_perm l). }
  destruct (lru_gets_ok (cache w) (recency w)
              (map (fun x => lang_key cfg path +:+ "#" +:+ to_str x) (map JNum zs)) Hok) as [Hok1 Hl1].
  pose proof (lru_room_le _ _ _ _ Hl1 Hroom) as Hroom1.
  clearbody cl miss. destruct (missing_pos (map JNum zs) cl 0) as [ms ps] eqn:E.
  cbn [fst snd] in Hm, Hf. subst ms.
  destruct miss as [|m miss'].
  - split; [|intros i z Hi; by destruct i].
    unfold details_fetch. cbn [length_gt_zero map length Nat.ltb]. unfold ret. cbn [fst].
    rewrite merge_fill_defined by exact (Hnil eq_refl). reflexivity.
  - destruct (ldetails_fetch_run cfg transport json_parse path (map JNum (m :: miss')) ps cl objs
      {| cache := cache w;
         recency := lru_gets (cache w) (recency w)
                      (map (fun x => lang_key cfg path +:+ "#" +:+ to_str x) (map JNum zs));
         trace := trace w ++ map (fun x => EvCacheGet (lang_key cfg path +:+ "#" +:+ to_str x))
                                 (map JNum zs) |})
      as (w' & Hc' & Hr' & Hrun).
    + discriminate.
    + rewrite to_str_ids. apply Hs. discriminate.
    + exact Hn.
    + rewrite Hrun. fold sorted. split; [cbn [fst]; by rewrite Hf|].
      intros i z Hi. cbn [snd].
      refine (lsets_lookup cfg (fun x => lang_key cfg path +:+ "#" +:+ to_str x) sorted
               (map JNum (m :: miss')) 0 i (JNum z) w' _ _ Hnd ltac:(by rewrite nth_error_map, Hi)).
      * rewrite Hc', Hr'. exact Hok1.
      * rewrite Hr', length_map. exact Hroom1.
Qed.

Lemma legacy_single_id_cache_only_witness :
  (15 <> 0)%Z /\
  _apiDetailsRequest lcfg_en lupstream_partial parse_fixture "items" (IdValue (JNum 15)) lw_empty
  = (Ok JUndef, snd (cache_get "en#items#15" lw_empty)).
Proof.
  split; [lia|].
  pose proof (legacy_single_id_cache_only lcfg_en lupstream_partial parse_fixture "items" 15 lw_empty
                ltac:(lia)) as H.
  cbv zeta in H. exact (H eq_refl).
Defined.

Lemma legacy_collection_non_200_rejects_witness :
  fst (_apiRequest lcfg_en lupstream_partial parse_fixture "items" (JNum 0) (JNum 50) lw_empty)
  = Err (LHttpError 206 "[item15]") /\
  cache (snd (_apiRequest lcfg_en lupstream_partial parse_fixture "items" (JNum 0) (JNum 50) lw_empty)) = ∅.
Proof.
  pose proof (legacy_collection_non_200_rejects lcfg_en lupstream_partial parse_fixture "items" (JNum 0) (JNum 50)
                lw_empty {| statusCode := 206; headers := []; body := "[item15]" |}) as H.
  cbv zeta in H. rewrite H by (reflexivity || (cbn; lia)). split; reflexivity.
Defined.

Lemma legacy_batch_positional_witness :
  fst (_apiDetailsRequest lcfg_en (lupstream_const "[item2016]") parse_fixture "items" (IdArray [15; 2016]%Z) lw_empty)
  = Ok (JArr [item2016; JUndef]) /\
  cache (snd (_apiDetailsRequest lcfg_en (lupstream_const "[item2016]") parse_fixture "items"
                (IdArray [15; 2016]%Z) lw_empty)) !! "en#items#15" = Some item2016.
Proof.
  pose proof (legacy_batch_positional lcfg_en (lupstream_const "[item2016]") parse_fixture "items"
                [15; 2016]%Z [item2016] lw_empty ltac:(apply (bool_decide_unpack _); reflexivity)) as H.
  cbv zeta in H.
  assert (Hok : lru_ok (cache lw_empty) (recency lw_empty)) by (intros k x E; discriminate E).
  destruct (H Hok ltac:(vm_compute; lia) (fun _ => eq_refl)
              ltac:(constructor; [intros E; vm_compute in E; discriminate E|constructor]))
    as [H1 H2].
  split; [exact H1 | exact (H2 0%nat 15%Z eq_refl)].
Defined.

Lemma ldetails_fetch_err cfg transport json_parse path (ms : list jsval) (ps : list nat)
    (cl : list jsval) (e : error) (w : world) :
  ms <> [] ->
  settle json_parse (transport (_buildURL path)
    [("ids", JStr (to_str (JArr ms))); ("lang", JStr (lang cfg))]) = Err e ->
  fst (details_fetch cfg transport json_parse path (IArr ms) ps (JArr cl) w) = Err e /\
  cache (snd (details_fetch cfg transport json_parse path (IArr ms) ps (JArr cl) w)) = cache w.
Proof.
  intros Hms Hs. unfold details_fetch, length_gt_zero.
  replace (0 <? length ms)%nat with true by (symmetry; apply Nat.ltb_lt; destruct ms; [congruence|cbn; lia]).
  unfold console_log, _idListToParams, _request, http_get.
  replace (fset [("ids", JStr (to_str (JArr ms)))] "lang" (JStr (lang cfg)))
    with [("ids", JStr (to_str (JArr ms))); ("lang", JStr (lang cfg))] by reflexivity.
  rewrite !lbind_run. unfold ret. cbn [fst snd]. rewrite Hs. split; reflexivity.
Qed.

(** In this revision a batch detail request has no partial tolerance: when
    some ids miss the cache and the transport call for them fails, the
    request rejects with that failure, even if other ids were cached, and
    the cache is left as it was. *)
Theorem legacy_batch_failure_rejects cfg transport json_parse path (l : list Z) (e : error) (w : world) :
  let key := fun z => lang_key cfg path +:+ "#" +:+ Z_to_string z in
  let miss := List.filter (fun z => is_undef (default JUndef (cache w !! key z))) (sort_ids l) in
  miss <> [] ->
  settle json_parse (transport (_buildURL path)
    [("ids", JStr (join "," (map Z_to_string miss))); ("lang", JStr (lang cfg))]) = Err e ->
  let r := _apiDetailsRequest cfg transport json_parse path (IdArray l) w in
  fst r = Err e /\ cache (snd r) = cache w.
Proof.
  intros key miss Hne Hs r. subst r.
  rewrite ldetails_array_run. cbv zeta.
  pose proof (missing_pos_ids (sort_ids l) (fun z => default JUndef (cache w !! key z)) 0) as Hm.
  rewrite map_map.
  change (map (fun x => default JUndef (cache w !! (lang_key cfg path +:+ "#" +:+ to_str (JNum x)))) (sort_ids l))
    with (map (fun z => default JUndef (cache w !! key z)) (sort_ids l)).
  destruct (missing_pos _ _ 0) as [ms ps]. cbn [fst] in Hm. subst ms.
  assert (Hne' : map JNum miss <> []) by (intros E; apply Hne; exact (map_eq_nil _ _ E)).
  assert (Hs' := Hs). rewrite <- to_str_ids in Hs'.
  destruct (ldetails_fetch_err cfg transport json_parse path (map JNum miss) ps
              (map (fun z => default JUndef (cache w !! key z)) (sort_ids l)) e
              {| cache := cache w;
                 recency := lru_gets (cache w) (recency w)
                              (map (fun x => lang_key cfg path +:+ "#" +:+ to_str x) (map JNum (sort_ids l)));
                 trace := trace w ++ map (fun x => EvCacheGet (lang_key cfg path +:+ "#" +:+ to_str x))
                                         (map JNum (sort_ids l)) |} Hne' Hs') as [H1 H2].
  split; [exact H1 | exact H2].
Qed.

(** In this revision a collection request that misses the cache and gets a
    truthy decoded answer stores it under [<lang>#<path>#params:<json>]; the
    same request made next returns it from the cache, with one cache read
    and no transport call. *)
Theorem legacy_collection_cached_after_success cfg transport json_parse path (page pageSize : jsval)
    (d : jsval) (w : world) :
  let params := [("page", page); ("page_size", pageSize)] in
  let key := lang_key cfg (path +:+ "#params:" +:+ params_text params) in
  truthy (default JUndef (cache w !! key)) = false ->
  settle json_parse (transport (_buildURL path) (fset params "lang" (JStr (lang cfg)))) = Ok d ->
  truthy d = true ->
  let r := _apiRequest cfg transport json_parse path page pageSize w in
  fst r = Ok d /\
  _apiRequest cfg transport json_parse path page pageSize (snd r) = (Ok d, snd (cache_get key (snd r))).
Proof.
  intros params key Hm Hs Hd r.
  assert (Hr : r = (Ok d, snd (cache_set cfg key d
                             {| cache := cache w; recency := lru_get key (cache w) (recency w);
                                trace := trace w ++ [EvCacheGet key;
                                                     EvTransport (_buildURL path) (fset params "lang" (JStr (lang cfg)))] |}))).
  { subst r. unfold _apiRequest, _findInCache, _findInCacheSimple, _request, _setCacheObject,
      cache_get, cache_set, http_get, ret, bind.
    cbv beta iota zeta. cbn [truthy negb fst snd]. fold params key. rewrite Hm. cbv beta iota.
    rewrite Hs. cbv beta iota. unfold emit. cbn [cache trace recency]. fold key. by rewrite <- !app_assoc. }
  rewrite Hr. split; [reflexivity|]. cbn [snd].
  assert (Hl := lcache_set_lookup_eq cfg key d
                  {| cache := cache w; recency := lru_get key (cache w) (recency w);
                     trace := trace w ++ [EvCacheGet key;
                                          EvTransport (_buildURL path) (fset params "lang" (JStr (lang cfg)))] |}).
  unfold _apiRequest, _findInCache, _findInCacheSimple, bind, ret.
  cbv beta iota zeta. cbn [truthy negb]. fold params key.
  unfold cache_get at 1. cbn [fst snd]. rewrite Hl. cbn [default id]. rewrite Hd. reflexivity.
Qed.

Lemma legacy_batch_failure_rejects_witness :
  fst (_apiDetailsRequest lcfg_en lupstream_partial parse_fixture "items" (IdArray [15; 2016]%Z) lw_15)
  = Err (LHttpError 206 "[item15]").
Proof.
  pose proof (legacy_batch_failure_rejects lcfg_en lupstream_partial parse_fixture "items" [15; 2016]%Z
                (LHttpError 206 "[item15]") lw_15) as H.
  cbv zeta in H. destruct (H ltac:(discriminate) eq_refl) as [H1 _]. exact H1.
Defined.

Lemma legacy_collection_cached_after_success_witness :
  fst (_apiRequest lcfg_en (lupstream_const "[item15]") parse_fixture "items" (JNum 0) (JNum 50) lw_empty)
  = Ok (JArr [item15]) /\
  trace (snd (_apiRequest lcfg_en (lupstream_const "[item15]") parse_fixture "items" (JNum 0) (JNum 50)
                (snd (_apiRequest lcfg_en (lupstream_const "[item15]") parse_fixture "items" (JNum 0) (JNum 50)
                        lw_empty)))) =
  trace (snd (_apiRequest lcfg_en (lupstream_const "[item15]") parse_fixture "items" (JNum 0) (JNum 50) lw_empty))
  ++ [EvCacheGet (lang_key lcfg_en ("items" +:+ "#params:" +:+ params_text [("page", JNum 0); ("page_size", JNum 50)]))].
Proof.
  pose proof (legacy_collection_cached_after_success lcfg_en (lupstream_const "[item15]") parse_fixture "items"
                (JNum 0) (JNum 50) (JArr [item15]) lw_empty) as H.
  cbv zeta in H. destruct (H eq_refl eq_refl eq_refl) as [H1 H2].
  split; [exact H1|]. rewrite H2. reflexivity.
Defined.
